(** * Timoni: ordered deletion and dry-run diff reporting

    A shallow embedding of [cmd/timoni/delete.go] ([runDeleteCmd]) and of the
    [dyff] package ([DyffPrinter.Print], [DiffYAML], [InstanceDryRunDiff]).

    Both functions orchestrate calls to collaborators that live outside the
    two source files (the fluxcd [ssa] resource manager, the instance storage,
    the logger, the file system, the dyff renderer).  The collaborators are
    fields of a record; each call threads an explicit world through and is
    recorded, with its result, in a chronological trace of events. *)

From Stdlib Require Import List String ZArith Bool Lia Permutation Sorted.
Import ListNotations.
Open Scope string_scope.
Open Scope list_scope.

Set Implicit Arguments.

(** ** Go values shared by the two packages *)

(** A Go [error]: built by [fmt.Errorf], with or without a wrapped cause
    ([%w]), or handed back by a collaborator. *)
Inductive error (X : Type) : Type :=
| Errorf (msg : string)
| Wrapf (msg : string) (cause : error X)
| External (x : X).
Arguments Errorf {X} msg.
Arguments Wrapf {X} msg cause.
Arguments External {X} x.

(** How a Go function of result type [error] ends: it returns ([nil] is
    [None]), or the process is terminated by [os.Exit]. *)
Inductive Outcome (X : Type) : Type :=
| Returned (err : option (error X))
| Exited (code : Z).
Arguments Returned {X} err.
Arguments Exited {X} code.

(** [ssa.Action] *)
Inductive Action : Type :=
| CreatedAction
| ConfiguredAction
| UnchangedAction
| DeletedAction
| SkippedAction
| UnknownAction.

Definition Action_eqb (a b : Action) : bool :=
  match a, b with
  | CreatedAction, CreatedAction
  | ConfiguredAction, ConfiguredAction
  | UnchangedAction, UnchangedAction
  | DeletedAction, DeletedAction
  | SkippedAction, SkippedAction
  | UnknownAction, UnknownAction => true
  | _, _ => false
  end.

(** Modelled from the spec: [ssa.ChangeSetEntry] is declared outside the
    sources; the spec describes a Change as an (Action, Resource) pair with
    enough identity to be rendered or re-queried later. *)
Record ChangeSetEntry (Obj : Type) : Type := {
  Subject : Obj;
  EntryAction : Action
}.

(** [ssa.ChangeSet]: entries in insertion order; [Add] appends. *)
Definition ChangeSet (Obj : Type) : Type := list (ChangeSetEntry Obj).
Definition NewChangeSet {Obj : Type} : ChangeSet Obj := [].
Definition ChangeSet_Add {Obj : Type} (cs : ChangeSet Obj) (e : ChangeSetEntry Obj)
  : ChangeSet Obj := cs ++ [e].

(** Modelled from the spec: [runtime.SelectObjectsFromSet] is declared outside
    the sources; the spec says a ChangeSet supports filtering by Action, and
    the caller uses the result as the list of resources of that action. *)
Definition SelectObjectsFromSet {Obj : Type} (cs : ChangeSet Obj) (a : Action)
  : list Obj :=
  map (@Subject Obj) (filter (fun e => Action_eqb (EntryAction e) a) cs).

(** The dry-run labels of the logger package. *)
Inductive DryRunLabel : Type := DryRunClient | DryRunServer.

(** The values handed to [logger.ColorizeJoin]. *)
Inductive Value (Obj : Type) : Type :=
| VObject (o : Obj)
| VAction (a : Action)
| VChange (c : ChangeSetEntry Obj)
| VString (s : string)
| VLabel (l : DryRunLabel).
Arguments VObject {Obj} o.
Arguments VAction {Obj} a.
Arguments VChange {Obj} c.
Arguments VString {Obj} s.
Arguments VLabel {Obj} l.

(** A log or spinner message. *)
Inductive Msg (Obj : Type) : Type :=
| Text (s : string)
| Sprintf (format : string) (n : nat)
| ColorizeJoin (vs : list (Value Obj))
| ColorizeUnstructured (o : Obj).
Arguments Text {Obj} s.
Arguments Sprintf {Obj} format n.
Arguments ColorizeJoin {Obj} vs.
Arguments ColorizeUnstructured {Obj} o.

(** [ssa.WaitOptions] *)
Record WaitOptions : Type := {
  Interval : Z;
  Timeout : Z;
  FailFast : bool
}.

Definition set_Timeout (o : WaitOptions) (t : Z) : WaitOptions :=
  {| Interval := Interval o; Timeout := t; FailFast := FailFast o |}.

(** [sort.Reverse]: the order with [Less] flipped. *)
Definition sort_Reverse {A : Type} (less : A -> A -> bool) : A -> A -> bool :=
  fun x y => less y x.

(** What [sort.Sort] asks of [Less] and what it gives back: for a strict weak
    order the result is a rearrangement of the input in which no element is
    less than one before it.  The sort is not stable. *)
Record StrictWeakOrder {A : Type} (less : A -> A -> bool) : Prop := {
  swo_irrefl : forall x, less x x = false;
  swo_trans : forall x y z, less x y = true -> less y z = true -> less x z = true;
  swo_negtrans : forall x y z, less x y = false -> less y z = false -> less x z = false
}.

Definition sort_contract {A : Type}
  (sort : (A -> A -> bool) -> list A -> list A) : Prop :=
  forall less l, StrictWeakOrder less ->
    Permutation l (sort less l) /\
    StronglySorted (fun x y => less y x = false) (sort less l).

(** ** A state monad with early exit

  A computation reads and writes a state [S]; it yields a value, or stops
  the enclosing function with its final outcome [O] ([return err],
  [os.Exit]). *)
Module Run.
Definition M (S O A : Type) : Type := S -> (A + O) * S.

Definition ret {S O A : Type} (a : A) : M S O A := fun s => (inl a, s).

Definition bind {S O A B : Type} (m : M S O A) (k : A -> M S O B) : M S O B :=
  fun s =>
    match m s with
    | (inl a, s') => k a s'
    | (inr o, s') => (inr o, s')
    end.

Definition stop {S O A : Type} (o : O) : M S O A := fun s => (inr o, s).

(** Run a function body whose fall-through outcome is [last]. *)
Definition exec {S O : Type} (last : O) (m : M S O unit) : S -> O * S :=
  fun s =>
    match m s with
    | (inl _, s') => (last, s')
    | (inr o, s') => (o, s')
    end.
End Run.

Declare Scope run_scope.
Delimit Scope run_scope with run.
Notation "x <- m ;; k" := (Run.bind m (fun x => k))
(at level 100, m at next level, right associativity) : run_scope.
Notation "m ;; k" := (Run.bind m (fun _ => k))
(at level 100, right associativity) : run_scope.

(** A Go result pair [(value, err)]. *)
Inductive result (X A : Type) : Type :=
| Ok (a : A)
| Err (e : error X).
Arguments Ok {X A} a.
Arguments Err {X A} e.

(** ** Package main: the delete command *)
Module DeleteCmd.

(** [deleteFlags] *)
Record deleteFlags : Type := {
name : string;
dryrun : bool;
wait : bool
}.

Definition set_name (f : deleteFlags) (n : string) : deleteFlags :=
{| name := n; dryrun := dryrun f; wait := wait f |}.

(** The collaborators of [runDeleteCmd]: the types and functions of the
  [runtime], [ssa] and [sort] packages that the command calls.  Calls that
  reach the cluster take the world and give the next one back. *)
Record Cluster : Type := {
Obj : Type;
Instance : Type;
ResourceManager : Type;
DeleteOptionsT : Type;
KubeConfig : Type;
World : Type;
ExtErr : Type;
Namespace : KubeConfig -> string;
NewResourceManager :
  KubeConfig -> World -> result ExtErr ResourceManager * World;
Storage_Get :
  ResourceManager -> string -> string -> World -> result ExtErr Instance * World;
Storage_Delete :
  ResourceManager -> string -> string -> World -> option (error ExtErr) * World;
inst_Name : Instance -> string;
inst_Namespace : Instance -> string;
ListObjects : Instance -> result ExtErr (list Obj);
DeleteOptions : string -> string -> DeleteOptionsT;
Less : Obj -> Obj -> bool;
sort_Sort : (Obj -> Obj -> bool) -> list Obj -> list Obj;
Delete :
  ResourceManager -> Obj -> DeleteOptionsT -> World ->
  result ExtErr (ChangeSetEntry Obj) * World;
WaitForTermination :
  ResourceManager -> list Obj -> WaitOptions -> World ->
  option (error ExtErr) * World;
DefaultWaitOptions : WaitOptions
}.

Section Command.
Variable C : Cluster.

(** The package-level variables the command reads. *)
Record Globals : Type := {
  deleteArgs : deleteFlags;
  kubeconfigArgs : KubeConfig C;
  rootTimeout : Z
}.

(** What the command does to the outside, in the order it does it. *)
Inductive Event : Type :=
| NewResourceManagerCall (r : result (ExtErr C) (ResourceManager C))
| StorageGetCall (n ns : string) (r : result (ExtErr C) (Instance C))
| LogInfo (m : Msg (Obj C))
| LogError (e : option (error (ExtErr C))) (m : Msg (Obj C))
| DeleteCall (o : Obj C) (opts : DeleteOptionsT C)
    (r : result (ExtErr C) (ChangeSetEntry (Obj C)))
| StorageDeleteCall (n ns : string) (r : option (error (ExtErr C)))
| SpinnerStart (m : Msg (Obj C))
| SpinnerStop
| WaitCall (objs : list (Obj C)) (opts : WaitOptions) (r : option (error (ExtErr C))).

Record State : Type := {
  world : World C;
  trace : list Event
}.

Definition M (A : Type) : Type := Run.M State (Outcome (ExtErr C)) A.

(** Call a collaborator on the current world and record the call. *)
Definition call {R : Type} (f : World C -> R * World C) (ev : R -> Event) : M R :=
  fun s =>
    let (r, w') := f (world s) in
    (inl r, {| world := w'; trace := trace s ++ [ev r] |}).

Definition emit (e : Event) : M unit :=
  fun s => (inl tt, {| world := world s; trace := trace s ++ [e] |}).

(** [if err != nil { return err }] *)
Definition orReturn {A : Type} (r : result (ExtErr C) A) : M A :=
  match r with
  | Ok a => Run.ret a
  | Err e => Run.stop (Returned (Some e))
  end.

Local Open Scope run_scope.

(** The dry-run loop, lines 100-102. *)
Fixpoint dryRunLoop (objects : list (Obj C)) : M unit :=
  match objects with
  | [] => Run.ret tt
  | object :: rest =>
      emit (LogInfo (ColorizeJoin
              [VObject object; VAction DeletedAction; VLabel DryRunClient])) ;;
      dryRunLoop rest
  end.

(** The deletion loop, lines 109-119, from the current [hasErrors] and
    change set to the ones after the last object. *)
Fixpoint deleteLoop (g : Globals) (sm : ResourceManager C)
    (objects : list (Obj C)) (hasErrors : bool) (cs : ChangeSet (Obj C))
  : M (bool * ChangeSet (Obj C)) :=
  match objects with
  | [] => Run.ret (hasErrors, cs)
  | object :: rest =>
      let deleteOpts := DeleteOptions C (name (deleteArgs g)) (Namespace C (kubeconfigArgs g)) in
      r <- call (Delete C sm object deleteOpts) (DeleteCall object deleteOpts) ;;
      match r with
      | Err e =>
          emit (LogError (Some e) (Text "deletion failed")) ;;
          deleteLoop g sm rest true cs
      | Ok change =>
          emit (LogInfo (ColorizeJoin [VChange change])) ;;
          deleteLoop g sm rest hasErrors (ChangeSet_Add cs change)
      end
  end.

(** Lines 129-140: select the deleted objects and wait for them. *)
Definition waitStep (g : Globals) (sm : ResourceManager C) (cs : ChangeSet (Obj C))
  : M unit :=
  let deletedObjects := SelectObjectsFromSet cs DeletedAction in
  if wait (deleteArgs g) && Nat.ltb 0 (List.length deletedObjects) then
    let waitOpts := set_Timeout (DefaultWaitOptions C) (rootTimeout g) in
    emit (SpinnerStart
            (Sprintf "waiting for %v resource(s) to be finalized..."
               (List.length deletedObjects))) ;;
    e <- call (WaitForTermination C sm deletedObjects waitOpts)
           (WaitCall deletedObjects waitOpts) ;;
    emit SpinnerStop ;;
    match e with
    | Some e => Run.stop (Returned (Some e))
    | None => emit (LogInfo (Text "all resources have been deleted"))
    end
  else Run.ret tt.

(** Lines 97-142: the command once the instance's objects are listed. *)
Definition deleteObjects (g : Globals) (sm : ResourceManager C)
    (inst : Instance C) (objects : list (Obj C)) : M unit :=
  let objects := sort_Sort C (sort_Reverse (Less C)) objects in
  if dryrun (deleteArgs g) then
    dryRunLoop objects ;;
    Run.stop (Returned None)
  else
    emit (LogInfo (Sprintf "deleting %v resource(s)..." (List.length objects))) ;;
    r <- deleteLoop g sm objects false NewChangeSet ;;
    let (hasErrors, cs) := r in
    (if hasErrors then Run.stop (Exited 1) else Run.ret tt) ;;
    e <- call (Storage_Delete C sm (inst_Name C inst) (inst_Namespace C inst))
           (StorageDeleteCall (inst_Name C inst) (inst_Namespace C inst)) ;;
    match e with
    | Some e => Run.stop (Returned (Some e))
    | None => waitStep g sm cs
    end.

(** [deleteArgs.name = args[0]] *)
Definition withName (g : Globals) (arg0 : string) : Globals :=
  {| deleteArgs := set_name (deleteArgs g) arg0;
     kubeconfigArgs := kubeconfigArgs g;
     rootTimeout := rootTimeout g |}.

(** [runDeleteCmd].  Building the logger and the context reaches nothing
    outside the process and leaves no event. *)
Definition runDeleteCmd (g : Globals) (args : list string)
  : State -> Outcome (ExtErr C) * State :=
  Run.exec (Returned None)
    match args with
    | [] => Run.stop (Returned (Some (Errorf "name is required")))
    | arg0 :: _ =>
        let g := withName g arg0 in
        r <- call (NewResourceManager C (kubeconfigArgs g)) NewResourceManagerCall ;;
        sm <- orReturn r ;;
        r <- call (Storage_Get C sm (name (deleteArgs g))
                     (Namespace C (kubeconfigArgs g)))
               (StorageGetCall (name (deleteArgs g))
                  (Namespace C (kubeconfigArgs g))) ;;
        inst <- orReturn r ;;
        objects <- orReturn (ListObjects C inst) ;;
        deleteObjects g sm inst objects
    end.

(** The state a command starts from: nothing has happened yet. *)
Definition start (w : World C) : State := {| world := w; trace := [] |}.

(** *** Reading a trace *)

(** The objects of the [sm.Delete] calls, in call order. *)
Definition deleteCalls (t : list Event) : list (Obj C) :=
  flat_map (fun e => match e with DeleteCall o _ _ => [o] | _ => [] end) t.

(** The changes the successful [sm.Delete] calls returned, in call order. *)
Definition deleteChanges (t : list Event) : ChangeSet (Obj C) :=
  flat_map (fun e => match e with DeleteCall _ _ (Ok c) => [c] | _ => [] end) t.

Definition isDeleteCall (e : Event) : bool :=
  match e with DeleteCall _ _ _ => true | _ => false end.

Definition isFailedDelete (e : Event) : bool :=
  match e with DeleteCall _ _ (Err _) => true | _ => false end.

Definition isStorageDelete (e : Event) : bool :=
  match e with StorageDeleteCall _ _ _ => true | _ => false end.

(** The termination wait: the spinner and [sm.WaitForTermination]. *)
Definition isWait (e : Event) : bool :=
  match e with
  | SpinnerStart _ | SpinnerStop | WaitCall _ _ _ => true
  | _ => false
  end.

(** A call that changes the cluster. *)
Definition isMutation (e : Event) : bool :=
  isDeleteCall e || isStorageDelete e.

(** The simulated change a dry run reports for an object. *)
Definition dryRunLine (o : Obj C) : Event :=
  LogInfo (ColorizeJoin [VObject o; VAction DeletedAction; VLabel DryRunClient]).

(** The order in which the command walks the objects. *)
Definition deletionOrder (objects : list (Obj C)) : list (Obj C) :=
  sort_Sort C (sort_Reverse (Less C)) objects.

(** Lines 70-95 succeed on [args] from world [w]: the resource manager [sm]
    is built, the instance [inst] is fetched, its objects are listed, and the
    world is then [w']. *)
Definition loads (g : Globals) (args : list string) (w : World C)
    (sm : ResourceManager C) (inst : Instance C) (objects : list (Obj C))
    (w' : World C) : Prop :=
  match args with
  | [] => False
  | arg0 :: _ =>
      exists w1,
        NewResourceManager C (kubeconfigArgs g) w = (Ok sm, w1) /\
        Storage_Get C sm arg0 (Namespace C (kubeconfigArgs g)) w1 = (Ok inst, w') /\
        ListObjects C inst = Ok objects
  end.

(** The two events of a successful load. *)
Definition loadTrace (g : Globals) (args : list string)
    (sm : ResourceManager C) (inst : Instance C) : list Event :=
  [NewResourceManagerCall (Ok sm);
   StorageGetCall (hd EmptyString args) (Namespace C (kubeconfigArgs g)) (Ok inst)].

(** *** More ways to read a trace *)

Definition isLog (e : Event) : bool :=
  match e with LogInfo _ | LogError _ _ => true | _ => false end.

(** The calls of lines 77-86: building the resource manager and fetching
    the instance. *)
Definition isPrelude (e : Event) : bool :=
  match e with
  | NewResourceManagerCall _ | StorageGetCall _ _ _ => true
  | _ => false
  end.

Definition isErr {A : Type} (r : result (ExtErr C) A) : bool :=
  match r with Err _ => true | Ok _ => false end.

(** The values of the results that are not errors, in order. *)
Definition oks {A : Type} (rs : list (result (ExtErr C) A)) : list A :=
  flat_map (fun r => match r with Ok a => [a] | Err _ => [] end) rs.

(** The two events of one turn of the deletion loop whose [sm.Delete] call
    answered [r]. *)
Definition deleteEvents (opts : DeleteOptionsT C) (o : Obj C)
    (r : result (ExtErr C) (ChangeSetEntry (Obj C))) : list Event :=
  [DeleteCall o opts r;
   match r with
   | Ok change => LogInfo (ColorizeJoin [VChange change])
   | Err e => LogError (Some e) (Text "deletion failed")
   end].

(** The events of the deletion loop over [objects] whose calls answered
    [results], one result per object. *)
Definition loopEvents (opts : DeleteOptionsT C) (objects : list (Obj C))
    (results : list (result (ExtErr C) (ChangeSetEntry (Obj C)))) : list Event :=
  flat_map (fun p => deleteEvents opts (fst p) (snd p)) (combine objects results).

(** The objects of the dry-run lines of a trace, in order. *)
Definition dryRunReported (t : list Event) : list (Obj C) :=
  flat_map (fun e =>
    match e with
    | LogInfo (ColorizeJoin [VObject o; VAction DeletedAction; VLabel DryRunClient]) => [o]
    | _ => []
    end) t.

(** The options of every [sm.Delete] call of the command run on [args]. *)
Definition scopedOptions (g : Globals) (args : list string) : DeleteOptionsT C :=
  DeleteOptions C (hd EmptyString args) (Namespace C (kubeconfigArgs g)).

(** The options of the termination wait. *)
Definition waitOptions (g : Globals) : WaitOptions :=
  set_Timeout (DefaultWaitOptions C) (rootTimeout g).

(** The four ways a real run ends after the deletion loop, lines 121-142,
    given the answers [results] of the [sm.Delete] calls: the events that
    follow the loop and the outcome of the command. *)
Inductive afterLoop (g : Globals) (inst : Instance C)
    (results : list (result (ExtErr C) (ChangeSetEntry (Obj C))))
  : list Event -> Outcome (ExtErr C) -> Prop :=
| AfterFailedDelete :
    existsb isErr results = true ->
    afterLoop g inst results [] (Exited 1)
| AfterRecordError (e : error (ExtErr C)) :
    existsb isErr results = false ->
    afterLoop g inst results
      [StorageDeleteCall (inst_Name C inst) (inst_Namespace C inst) (Some e)]
      (Returned (Some e))
| AfterNoWait :
    existsb isErr results = false ->
    wait (deleteArgs g) &&
      Nat.ltb 0 (List.length (SelectObjectsFromSet (oks results) DeletedAction))
      = false ->
    afterLoop g inst results
      [StorageDeleteCall (inst_Name C inst) (inst_Namespace C inst) None]
      (Returned None)
| AfterWait (r : option (error (ExtErr C))) :
    existsb isErr results = false ->
    wait (deleteArgs g) = true ->
    SelectObjectsFromSet (oks results) DeletedAction <> [] ->
    afterLoop g inst results
      ([StorageDeleteCall (inst_Name C inst) (inst_Namespace C inst) None;
        SpinnerStart
          (Sprintf "waiting for %v resource(s) to be finalized..."
             (List.length (SelectObjectsFromSet (oks results) DeletedAction)));
        WaitCall (SelectObjectsFromSet (oks results) DeletedAction)
          (waitOptions g) r;
        SpinnerStop] ++
       match r with
       | Some _ => []
       | None => [LogInfo (Text "all resources have been deleted")]
       end)
      (Returned r).

End Command.

Arguments NewResourceManagerCall {C} r.
Arguments StorageGetCall {C} n ns r.
Arguments LogInfo {C} m.
Arguments LogError {C} e m.
Arguments DeleteCall {C} o opts r.
Arguments StorageDeleteCall {C} n ns r.
Arguments SpinnerStart {C} m.
Arguments SpinnerStop {C}.
Arguments WaitCall {C} objs opts r.
Arguments start C w : clear implicits.
Arguments dryRunLine {C} o.
Arguments deletionOrder C objects : clear implicits.
Arguments isErr {C A} r.
Arguments deleteEvents {C} opts o r.
Arguments loopEvents {C} opts objects results.
Arguments oks {C A} rs.

End DeleteCmd.

(** ** Package dyff: printing reports and the dry-run diff *)
Module Dyff.

(** [DyffPrinter] *)
Record DyffPrinter : Type := {
  OmitHeader : bool
}.

(** [NewDyffPrinter] *)
Definition NewDyffPrinter : DyffPrinter := {| OmitHeader := true |}.

(** The collaborators of the package: the [ssa] resource manager and its
    helpers, [sort], [yaml], [filepath], [os], [ytbx] and [dyff]. *)
Record Env : Type := {
  Obj : Type;
  ResourceManager : Type;
  DiffOptionsT : Type;
  Bytes : Type;
  Writer : Type;
  InputFile : Type;
  Report : Type;
  World : Type;
  ExtErr : Type;
  Less : Obj -> Obj -> bool;
  sort_Sort : (Obj -> Obj -> bool) -> list Obj -> list Obj;
  DefaultDiffOptions : DiffOptionsT;
  Diff :
    ResourceManager -> Obj -> DiffOptionsT -> World ->
    result ExtErr (ChangeSetEntry Obj * option Obj * option Obj) * World;
  IsImmutableError : error ExtErr -> bool;
  AnyInMetadata : Obj -> list (string * string) -> bool;
  ForceAction : string;
  EnabledValue : string;
  yaml_Marshal : option Obj -> Bytes;
  filepath_Join : string -> string -> string;
  os_WriteFile : string -> Bytes -> Z -> World -> option (error ExtErr) * World;
  LoadFiles :
    string -> string -> World -> result ExtErr (InputFile * InputFile) * World;
  CompareInputFiles : InputFile -> InputFile -> result ExtErr Report;
  WriteReport :
    Report -> bool -> Writer -> World -> option (error ExtErr) * World
}.

Section Package.
Variable E : Env.

(** An argument of [Print]: a [dyff.Report], or a value of another type
    (kept by its type name, which is all [%T] prints). *)
Inductive PrintArg : Type :=
| ArgReport (r : Report E)
| ArgOther (typeName : string).

Inductive Event : Type :=
| LogInfo (m : Msg (Obj E))
| LogError (e : option (error (ExtErr E))) (m : Msg (Obj E))
| DiffCall (o : Obj E)
    (r : result (ExtErr E) (ChangeSetEntry (Obj E) * option (Obj E) * option (Obj E)))
| WriteFileCall (path : string) (data : Bytes E) (perm : Z)
    (r : option (error (ExtErr E)))
| LoadFilesCall (from to : string)
    (r : result (ExtErr E) (InputFile E * InputFile E))
| WriteReportCall (rep : Report E) (omitHeader : bool) (w : Writer E)
    (r : option (error (ExtErr E))).

Record State : Type := {
  world : World E;
  trace : list Event
}.

(** Every function of the package returns an [error]. *)
Definition M (A : Type) : Type := Run.M State (option (error (ExtErr E))) A.

Definition call {R : Type} (f : World E -> R * World E) (ev : R -> Event) : M R :=
  fun s =>
    let (r, w') := f (world s) in
    (inl r, {| world := w'; trace := trace s ++ [ev r] |}).

Definition emit (e : Event) : M unit :=
  fun s => (inl tt, {| world := world s; trace := trace s ++ [e] |}).

(** Call a function of the package and get its [error] as a value. *)
Definition invoke (f : State -> option (error (ExtErr E)) * State)
  : M (option (error (ExtErr E))) :=
  fun s => let (r, s') := f s in (inl r, s').

(** [if err != nil { return err }] *)
Definition check (e : option (error (ExtErr E))) : M unit :=
  match e with
  | Some e => Run.stop (Some e)
  | None => Run.ret tt
  end.

Local Open Scope run_scope.

(** The loop of [Print] over its arguments. *)
Fixpoint printLoop (p : DyffPrinter) (w : Writer E) (args : list PrintArg) : M unit :=
  match args with
  | [] => Run.ret tt
  | ArgReport rep :: rest =>
      e <- call (WriteReport E rep (OmitHeader p) w)
             (WriteReportCall rep (OmitHeader p) w) ;;
      match e with
      | Some e => Run.stop (Some (Wrapf "failed to print report: %w" e))
      | None => printLoop p w rest
      end
  | ArgOther t :: _ =>
      Run.stop (Some (Errorf ("unsupported type " ++ t)%string))
  end.

(** [DyffPrinter.Print] *)
Definition Print (p : DyffPrinter) (w : Writer E) (args : list PrintArg)
  : State -> option (error (ExtErr E)) * State :=
  Run.exec None (printLoop p w args).

(** [DiffYAML]; the comparison options are constants of the call. *)
Definition DiffYAML (liveFile mergedFile : string) (output : Writer E)
  : State -> option (error (ExtErr E)) * State :=
  Run.exec None
    (r <- call (LoadFiles E liveFile mergedFile) (LoadFilesCall liveFile mergedFile) ;;
     match r with
     | Err e => Run.stop (Some (Wrapf "failed to load input files: %w" e))
     | Ok (from, to) =>
         match CompareInputFiles E from to with
         | Err e => Run.stop (Some (Wrapf "failed to compare input files: %w" e))
         | Ok report =>
             let printer := NewDyffPrinter in
             e <- invoke (Print printer output [ArgReport report]) ;;
             Run.stop e
         end
     end).

(** Lines 270-286: the detailed diff of a configured object. *)
Definition detailStep (tmpDir : string) (w : Writer E)
    (liveObject mergedObject : option (Obj E)) : M unit :=
  let liveYAML := yaml_Marshal E liveObject in
  let liveFile := filepath_Join E tmpDir "live.yaml" in
  e <- call (os_WriteFile E liveFile liveYAML 420)
         (WriteFileCall liveFile liveYAML 420) ;;
  check e ;;
  let mergedYAML := yaml_Marshal E mergedObject in
  let mergedFile := filepath_Join E tmpDir "merged.yaml" in
  e <- call (os_WriteFile E mergedFile mergedYAML 420)
         (WriteFileCall mergedFile mergedYAML 420) ;;
  check e ;;
  e <- invoke (DiffYAML liveFile mergedFile w) ;;
  check e.

(** Lines 253-266: what is logged when [rm.Diff] fails on [r]. *)
Definition diffFailed (r : Obj E) (e : error (ExtErr E)) : M unit :=
  if IsImmutableError E e then
    if AnyInMetadata E r [(ForceAction E, EnabledValue E)] then
      emit (LogInfo (ColorizeJoin
              [VObject r; VAction CreatedAction; VLabel DryRunServer]))
    else
      emit (LogError None (ColorizeJoin
              [VObject r; VString "immutable"; VLabel DryRunServer]))
  else
    emit (LogError (Some e) (ColorizeUnstructured r)).

(** The loop over the desired objects, lines 246-287. *)
Fixpoint desiredLoop (rm : ResourceManager E) (diffOpts : DiffOptionsT E)
    (nsExists : bool) (tmpDir : string) (withDiff : bool) (w : Writer E)
    (objects : list (Obj E)) : M unit :=
  match objects with
  | [] => Run.ret tt
  | r :: rest =>
      if negb nsExists then
        emit (LogInfo (ColorizeJoin
                [VObject r; VAction CreatedAction; VLabel DryRunServer])) ;;
        desiredLoop rm diffOpts nsExists tmpDir withDiff w rest
      else
        d <- call (Diff E rm r diffOpts) (DiffCall r) ;;
        match d with
        | Err e =>
            diffFailed r e ;;
            desiredLoop rm diffOpts nsExists tmpDir withDiff w rest
        | Ok (change, liveObject, mergedObject) =>
            emit (LogInfo (ColorizeJoin [VChange change; VLabel DryRunServer])) ;;
            (if withDiff && Action_eqb (EntryAction change) ConfiguredAction
             then detailStep tmpDir w liveObject mergedObject
             else Run.ret tt) ;;
            desiredLoop rm diffOpts nsExists tmpDir withDiff w rest
        end
  end.

(** The loop over the stale objects, lines 289-291. *)
Fixpoint staleLoop (staleObjects : list (Obj E)) : M unit :=
  match staleObjects with
  | [] => Run.ret tt
  | r :: rest =>
      emit (LogInfo (ColorizeJoin
              [VObject r; VAction DeletedAction; VLabel DryRunServer])) ;;
      staleLoop rest
  end.

(** [InstanceDryRunDiff] *)
Definition InstanceDryRunDiff (rm : ResourceManager E)
    (objects staleObjects : list (Obj E)) (nsExists : bool) (tmpDir : string)
    (withDiff : bool) (w : Writer E)
  : State -> option (error (ExtErr E)) * State :=
  Run.exec None
    (let diffOpts := DefaultDiffOptions E in
     let objects := sort_Sort E (Less E) objects in
     desiredLoop rm diffOpts nsExists tmpDir withDiff w objects ;;
     staleLoop staleObjects).

(** The state the report starts from: nothing has happened yet. *)
Definition start (w : World E) : State := {| world := w; trace := [] |}.

(** *** Reading a trace *)

Definition isDiffCall (e : Event) : bool :=
  match e with DiffCall _ _ => true | _ => false end.

(** The objects of the [rm.Diff] calls, in call order. *)
Definition diffCalls (t : list Event) : list (Obj E) :=
  flat_map (fun e => match e with DiffCall o _ => [o] | _ => [] end) t.

(** The line that reports an object as created, at info level. *)
Definition createdLine (r : Obj E) : Event :=
  LogInfo (ColorizeJoin [VObject r; VAction CreatedAction; VLabel DryRunServer]).

(** The line that reports an immutable conflict, at error level. *)
Definition immutableLine (r : Obj E) : Event :=
  LogError None (ColorizeJoin [VObject r; VString "immutable"; VLabel DryRunServer]).

(** The line that reports a stale object as a prospective deletion. *)
Definition staleLine (r : Obj E) : Event :=
  LogInfo (ColorizeJoin [VObject r; VAction DeletedAction; VLabel DryRunServer]).

(** The force marker: [action.timoni.sh/force: enabled] in the metadata. *)
Definition hasForceMarker (r : Obj E) : bool :=
  AnyInMetadata E r [(ForceAction E, EnabledValue E)].

(** The line logged for an object whose [rm.Diff] call failed with [e]. *)
Definition failureLine (r : Obj E) (e : error (ExtErr E)) : Event :=
  if IsImmutableError E e then
    if hasForceMarker r then createdLine r else immutableLine r
  else LogError (Some e) (ColorizeUnstructured r).

(** *** More ways to read a trace *)

Definition isLog (e : Event) : bool :=
  match e with LogInfo _ | LogError _ _ => true | _ => false end.

(** The events of the detailed diff: snapshot writes, loads and renderings. *)
Definition isFileEvent (e : Event) : bool :=
  match e with
  | WriteFileCall _ _ _ _ | LoadFilesCall _ _ _ | WriteReportCall _ _ _ _ => true
  | _ => false
  end.

(** The line that reports the change [rm.Diff] returned. *)
Definition changeLine (c : ChangeSetEntry (Obj E)) : Event :=
  LogInfo (ColorizeJoin [VChange c; VLabel DryRunServer]).

(** The event of a report written without error. *)
Definition written (p : DyffPrinter) (w : Writer E) (rep : Report E) : Event :=
  WriteReportCall rep (OmitHeader p) w None.

(** The discipline of the detailed diff in directory [tmpDir] with output
    [w]: what a snapshot write, a load and a rendering look like. *)
Definition disciplined (tmpDir : string) (w : Writer E) (e : Event) : Prop :=
  match e with
  | WriteFileCall path _ perm _ =>
      perm = 420%Z /\
      (path = filepath_Join E tmpDir "live.yaml" \/
       path = filepath_Join E tmpDir "merged.yaml")
  | LoadFilesCall from to _ =>
      from = filepath_Join E tmpDir "live.yaml" /\
      to = filepath_Join E tmpDir "merged.yaml"
  | WriteReportCall _ omitHeader w' _ => omitHeader = true /\ w' = w
  | _ => True
  end.

(** What the loop over the desired objects, run with the namespace present,
    guarantees of its result [r] and of the events [evs] it added: the
    detailed diff keeps its discipline; no line is a stale line; a file
    event means detailed diffs were asked for and [rm.Diff] returned a
    configured change; the objects diffed are a prefix of the objects, all
    of them when the loop reached its end; the loop then logged one line per
    object; and the loop stops early only on a failure of the detailed
    diff. *)
Definition loopGuarantee (tmpDir : string) (withDiff : bool) (w : Writer E)
    (objects : list (Obj E)) (r : unit + option (error (ExtErr E)))
    (evs : list Event) : Prop :=
  Forall (disciplined tmpDir w) evs /\
  (forall ev x, In ev evs -> ev <> staleLine x) /\
  (forall ev, In ev evs -> isFileEvent ev = true ->
     withDiff = true /\
     exists o c live merged,
       In (DiffCall o (Ok (c, live, merged))) evs /\
       EntryAction c = ConfiguredAction) /\
  (exists rest, objects = diffCalls evs ++ rest /\ (r = inl tt -> rest = [])) /\
  (r = inl tt -> List.length (filter isLog evs) = List.length objects) /\
  (r = inl tt \/
   exists err, r = inr (Some err) /\ exists ev, In ev evs /\ isFileEvent ev = true).

(** The error the report returns because of an event of the detailed diff:
    a snapshot write that failed, a load that failed, a load whose files do
    not compare, a rendering that failed. *)
Definition detailError (e : Event) : option (error (ExtErr E)) :=
  match e with
  | WriteFileCall _ _ _ (Some err) => Some err
  | LoadFilesCall _ _ (Err err) =>
      Some (Wrapf "failed to load input files: %w" err)
  | LoadFilesCall _ _ (Ok (from, to)) =>
      match CompareInputFiles E from to with
      | Err err => Some (Wrapf "failed to compare input files: %w" err)
      | Ok _ => None
      end
  | WriteReportCall _ _ _ (Some err) =>
      Some (Wrapf "failed to print report: %w" err)
  | _ => None
  end.

(** A computation that ends with [r] after the events [evs] stops on the
    first failure of the detailed diff: if it ran to its end no event
    failed, and if it stopped with an error its last event is the one that
    failed, with that error, and no earlier event had failed. *)
Definition stopsOnFailure (r : unit + option (error (ExtErr E)))
    (evs : list Event) : Prop :=
  match r with
  | inl _ => Forall (fun ev => detailError ev = None) evs
  | inr None => False
  | inr (Some err) =>
      exists init last,
        evs = init ++ [last] /\
        Forall (fun ev => detailError ev = None) init /\
        detailError last = Some err
  end.

End Package.

Arguments LogInfo {E} m.
Arguments LogError {E} e m.
Arguments DiffCall {E} o r.
Arguments WriteFileCall {E} path data perm r.
Arguments LoadFilesCall {E} from to r.
Arguments WriteReportCall {E} rep omitHeader w r.
Arguments ArgReport {E} r.
Arguments ArgOther {E} typeName.
Arguments start E w : clear implicits.
Arguments createdLine {E} r.
Arguments immutableLine {E} r.
Arguments staleLine {E} r.
Arguments hasForceMarker {E} r.
Arguments failureLine {E} r e.
Arguments changeLine {E} c.
Arguments written {E} p w rep.
Arguments disciplined {E} tmpDir w e.
Arguments loopGuarantee {E} tmpDir withDiff w objects r evs.
Arguments stopsOnFailure {E} r evs.

End Dyff.

(** ** A small cluster to run the two packages on *)
Module Sample.

(** An insertion sort, standing in for [sort.Sort]. *)
Fixpoint insert {A : Type} (less : A -> A -> bool) (x : A) (l : list A) : list A :=
  match l with
  | [] => [x]
  | y :: l' => if less x y then x :: y :: l' else y :: insert less x l'
  end.

Definition isort {A : Type} (less : A -> A -> bool) (l : list A) : list A :=
  fold_right (insert less) [] l.

(** An object: its rank in the canonical order and its labels. *)
Record object : Type := {
  rank : nat;
  labels : list (string * string)
}.

Definition obj (n : nat) : object := {| rank := n; labels := [] |}.

Definition object_less (a b : object) : bool := Nat.ltb (rank a) (rank b).

(** The cluster holds one instance, which owns the objects of [inventory];
    it refuses to delete the objects listed in [protected], and refuses to
    delete the instance record when [locked]. *)
Record cluster_state : Type := {
  inventory : list nat;
  protected : list nat;
  locked : bool
}.

Definition sample_Delete (_ : unit) (o : nat) (_ : string * string)
    (w : cluster_state) : result string (ChangeSetEntry nat) * cluster_state :=
  if existsb (Nat.eqb o) (protected w)
  then (Err (External "forbidden"), w)
  else (Ok {| Subject := o; EntryAction := DeletedAction |},
        {| inventory := filter (fun x => negb (Nat.eqb x o)) (inventory w);
           protected := protected w;
           locked := locked w |}).

Definition sample_Storage_Delete (_ : unit) (_ _ : string) (w : cluster_state)
  : option (error string) * cluster_state :=
  if locked w then (Some (External "record is locked"), w) else (None, w).

(** An instance is its inventory. *)
Definition sample_Storage_Get (_ : unit) (_ _ : string) (w : cluster_state)
  : result string (list nat) * cluster_state :=
  (Ok (inventory w), w).

Definition cluster : DeleteCmd.Cluster := {|
  DeleteCmd.Obj := nat;
  DeleteCmd.Instance := list nat;
  DeleteCmd.ResourceManager := unit;
  DeleteCmd.DeleteOptionsT := string * string;
  DeleteCmd.KubeConfig := string;
  DeleteCmd.World := cluster_state;
  DeleteCmd.ExtErr := string;
  DeleteCmd.Namespace := fun k => k;
  DeleteCmd.NewResourceManager := fun _ w => (Ok tt, w);
  DeleteCmd.Storage_Get := sample_Storage_Get;
  DeleteCmd.Storage_Delete := sample_Storage_Delete;
  DeleteCmd.inst_Name := fun _ => "app";
  DeleteCmd.inst_Namespace := fun _ => "default";
  DeleteCmd.ListObjects := fun inst => Ok inst;
  DeleteCmd.DeleteOptions := fun n ns => (n, ns);
  DeleteCmd.Less := Nat.ltb;
  DeleteCmd.sort_Sort := isort;
  DeleteCmd.Delete := sample_Delete;
  DeleteCmd.WaitForTermination := fun _ _ _ w => (None, w);
  DeleteCmd.DefaultWaitOptions :=
    {| Interval := 2; Timeout := 60; FailFast := false |}
|}.

Definition globals (dry waiting : bool) : DeleteCmd.Globals cluster :=
  @DeleteCmd.Build_Globals cluster
    {| DeleteCmd.name := EmptyString; DeleteCmd.dryrun := dry; DeleteCmd.wait := waiting |}
    "default" 300.

(** Four clusters: all deletions go through; object 2 cannot be deleted; the
    instance record cannot be deleted; the same for an instance that owns
    nothing. *)
Definition healthy : cluster_state :=
  {| inventory := [1; 2; 3]; protected := []; locked := false |}.

Definition guarded : cluster_state :=
  {| inventory := [1; 2; 3]; protected := [2]; locked := false |}.

Definition locked_record : cluster_state :=
  {| inventory := [1]; protected := []; locked := true |}.

Definition locked_empty : cluster_state :=
  {| inventory := []; protected := []; locked := true |}.

Definition healthy_empty : cluster_state :=
  {| inventory := []; protected := []; locked := false |}.

(** A cluster whose instance lists its objects out of canonical order. *)
Definition shuffled : cluster_state :=
  {| inventory := [2; 3; 1]; protected := []; locked := false |}.

(** The same cluster behind a storage that only knows the instance [app]:
    fetching any other name fails. *)
Definition strict_Storage_Get (_ : unit) (n _ : string) (w : cluster_state)
  : result string (list nat) * cluster_state :=
  if String.eqb n "app"
  then (Ok (inventory w), w)
  else (Err (External "instance not found"), w).

Definition strict_cluster : DeleteCmd.Cluster := {|
  DeleteCmd.Obj := nat;
  DeleteCmd.Instance := list nat;
  DeleteCmd.ResourceManager := unit;
  DeleteCmd.DeleteOptionsT := string * string;
  DeleteCmd.KubeConfig := string;
  DeleteCmd.World := cluster_state;
  DeleteCmd.ExtErr := string;
  DeleteCmd.Namespace := fun k => k;
  DeleteCmd.NewResourceManager := fun _ w => (Ok tt, w);
  DeleteCmd.Storage_Get := strict_Storage_Get;
  DeleteCmd.Storage_Delete := sample_Storage_Delete;
  DeleteCmd.inst_Name := fun _ => "app";
  DeleteCmd.inst_Namespace := fun _ => "default";
  DeleteCmd.ListObjects := fun inst => Ok inst;
  DeleteCmd.DeleteOptions := fun n ns => (n, ns);
  DeleteCmd.Less := Nat.ltb;
  DeleteCmd.sort_Sort := isort;
  DeleteCmd.Delete := sample_Delete;
  DeleteCmd.WaitForTermination := fun _ _ _ w => (None, w);
  DeleteCmd.DefaultWaitOptions :=
    {| Interval := 2; Timeout := 60; FailFast := false |}
|}.

Definition strict_globals (dry waiting : bool) : DeleteCmd.Globals strict_cluster :=
  @DeleteCmd.Build_Globals strict_cluster
    {| DeleteCmd.name := EmptyString; DeleteCmd.dryrun := dry;
       DeleteCmd.wait := waiting |}
    "default" 300.

(** The store of the dry-run diff: the ranks whose merge is rejected for an
    immutable field, and whether the temporary directory can be written. *)
Record store_state : Type := {
  immutable : list nat;
  readonly : bool
}.

Definition sample_Diff (_ : unit) (o : object) (_ : unit) (w : store_state)
  : result string (ChangeSetEntry object * option object * option object)
    * store_state :=
  if existsb (Nat.eqb (rank o)) (immutable w)
  then (Err (External "field is immutable"), w)
  else (Ok ({| Subject := o; EntryAction := ConfiguredAction |}, Some o, Some o), w).

Definition sample_IsImmutableError (e : error string) : bool :=
  match e with
  | External m => String.eqb m "field is immutable"
  | _ => false
  end.

Definition sample_AnyInMetadata (o : object) (kvs : list (string * string)) : bool :=
  existsb
    (fun kv =>
       existsb (fun l => String.eqb (fst l) (fst kv) && String.eqb (snd l) (snd kv))
         (labels o))
    kvs.

Definition sample_WriteFile (_ : string) (_ : string) (_ : Z) (w : store_state)
  : option (error string) * store_state :=
  if readonly w then (Some (External "read-only file system"), w) else (None, w).

Definition env : Dyff.Env := {|
  Dyff.Obj := object;
  Dyff.ResourceManager := unit;
  Dyff.DiffOptionsT := unit;
  Dyff.Bytes := string;
  Dyff.Writer := unit;
  Dyff.InputFile := string;
  Dyff.Report := string;
  Dyff.World := store_state;
  Dyff.ExtErr := string;
  Dyff.Less := object_less;
  Dyff.sort_Sort := isort;
  Dyff.DefaultDiffOptions := tt;
  Dyff.Diff := sample_Diff;
  Dyff.IsImmutableError := sample_IsImmutableError;
  Dyff.AnyInMetadata := sample_AnyInMetadata;
  Dyff.ForceAction := "action.timoni.sh/force";
  Dyff.EnabledValue := "enabled";
  Dyff.yaml_Marshal := fun o => match o with Some _ => "object" | None => "null" end;
  Dyff.filepath_Join := fun d f => (d ++ "/" ++ f)%string;
  Dyff.os_WriteFile := sample_WriteFile;
  Dyff.LoadFiles := fun a b w => (Ok (a, b), w);
  Dyff.CompareInputFiles := fun a b => Ok (a ++ " -> " ++ b)%string;
  Dyff.WriteReport := fun _ _ _ w => (None, w)
|}.

Definition forced (n : nat) : object :=
  {| rank := n; labels := [("action.timoni.sh/force", "enabled")] |}.

(** Two stores: one rejects the merges of objects 1 and 3 for an immutable
    field; the other accepts every merge but cannot write the snapshots. *)
Definition conflicting : store_state :=
  {| immutable := [1; 3]; readonly := false |}.

Definition unwritable : store_state :=
  {| immutable := []; readonly := true |}.

End Sample.

(** * Properties *)

(** ** Sorting *)
Section Sorting.
Context {A : Type}.
Variable less : A -> A -> bool.
Hypothesis less_swo : StrictWeakOrder less.

Lemma less_asym (x y : A) : less x y = true -> less y x = false.
Proof.
  intros Hxy. destruct (less y x) eqn:Hyx; [|reflexivity].
  rewrite <- (swo_irrefl less_swo x). symmetry.
  exact (swo_trans less_swo _ _ _ Hxy Hyx).
Qed.

Lemma sorted_strongly (l : list A) :
  Sorted (fun x y => less x y = true) l ->
  StronglySorted (fun x y => less x y = true) l.
Proof.
  apply Sorted_StronglySorted. intros x y z. apply (swo_trans less_swo).
Qed.

(** Any two members of a list in strict order are equal or comparable. *)
Lemma sorted_comparable (l : list A) :
  StronglySorted (fun x y => less x y = true) l ->
  forall x y, In x l -> In y l -> x = y \/ less x y = true \/ less y x = true.
Proof.
  induction 1 as [|a l Hs IH Hall]; intros x y Hx Hy; [destruct Hx|].
  rewrite Forall_forall in Hall.
  destruct Hx as [<-|Hx], Hy as [<-|Hy]; auto.
Qed.

Lemma sorted_NoDup (l : list A) :
  StronglySorted (fun x y => less x y = true) l -> NoDup l.
Proof.
  induction 1 as [|a l Hs IH Hall]; constructor; auto.
  intros Hin. rewrite Forall_forall in Hall.
  specialize (Hall a Hin). rewrite (swo_irrefl less_swo) in Hall. discriminate.
Qed.

(** Two lists in strict order with the same members are the same list. *)
Lemma sorted_unique (l1 : list A) :
  forall l2,
  StronglySorted (fun x y => less x y = true) l1 ->
  StronglySorted (fun x y => less x y = true) l2 ->
  Permutation l1 l2 -> l1 = l2.
Proof.
  induction l1 as [|a l1 IH]; intros l2 H1 H2 Hp.
  - apply Permutation_nil in Hp. now subst.
  - destruct l2 as [|b l2].
    + apply Permutation_sym, Permutation_nil in Hp. discriminate.
    + inversion H1 as [|? ? Hs1 Ha]; subst.
      inversion H2 as [|? ? Hs2 Hb]; subst.
      rewrite Forall_forall in Ha, Hb.
      assert (a = b) as ->.
      { assert (In a (b :: l2)) as Hin1
          by (eapply Permutation_in; [exact Hp | now left]).
        assert (In b (a :: l1)) as Hin2
          by (eapply Permutation_in; [apply Permutation_sym; exact Hp | now left]).
        destruct Hin1 as [->|Hin1]; [reflexivity|].
        destruct Hin2 as [->|Hin2]; [reflexivity|].
        pose proof (Hb a Hin1) as Hba. pose proof (Ha b Hin2) as Hab.
        rewrite (less_asym Hba) in Hab. discriminate. }
      f_equal. apply IH; auto. eapply Permutation_cons_inv; exact Hp.
Qed.

Lemma strongly_sorted_rev (R : A -> A -> Prop) (l : list A) :
  StronglySorted R l -> StronglySorted (fun x y => R y x) (rev l).
Proof.
  induction 1 as [|a l Hs IH Hall]; simpl; [constructor|].
  rewrite Forall_forall in Hall.
  assert (forall pre, StronglySorted (fun x y => R y x) pre ->
            (forall x, In x pre -> R a x) ->
            StronglySorted (fun x y => R y x) (pre ++ [a])) as Hsnoc.
  { induction pre as [|p pre IHp]; intros Hpre Hin; simpl.
    - repeat constructor.
    - inversion Hpre as [|? ? Hpre' Hp]; subst. constructor.
      + apply IHp; auto. intros x Hx. apply Hin. now right.
      + apply Forall_app. split; [exact Hp|].
        constructor; [|constructor]. apply Hin. now left. }
  apply Hsnoc; [exact IH|]. intros x Hx. apply Hall. now apply in_rev.
Qed.

Lemma reverse_swo : StrictWeakOrder (sort_Reverse less).
Proof.
  unfold sort_Reverse. constructor.
  - intros x. apply (swo_irrefl less_swo).
  - intros x y z Hxy Hyz. exact (swo_trans less_swo _ _ _ Hyz Hxy).
  - intros x y z Hxy Hyz. exact (swo_negtrans less_swo _ _ _ Hyz Hxy).
Qed.

Variable sort : (A -> A -> bool) -> list A -> list A.
Hypothesis sort_ok : sort_contract sort.

Lemma sort_nil (lt : A -> A -> bool) : StrictWeakOrder lt -> sort lt [] = [].
Proof.
  intros Hlt. destruct (sort_ok [] Hlt) as [Hp _].
  now apply Permutation_nil in Hp.
Qed.

(** Sorting a list that is in strict ascending order by the reversed order
    gives the list backwards, whatever the sorting algorithm. *)
Lemma sort_reverse_of_sorted (l : list A) :
  Sorted (fun x y => less x y = true) l ->
  sort (sort_Reverse less) l = rev l.
Proof.
  intros Hl. apply sorted_strongly in Hl.
  destruct (sort_ok l reverse_swo) as [Hp Hs].
  set (l' := sort (sort_Reverse less) l) in *.
  unfold sort_Reverse in Hs.
  assert (NoDup l') as Hnd
    by (eapply Permutation_NoDup; [exact Hp | now apply sorted_NoDup]).
  assert (StronglySorted (fun x y => less y x = true) l') as Hdesc.
  { assert (forall x, In x l' -> In x l) as Hsub
      by (intros x Hx; eapply Permutation_in;
          [apply Permutation_sym; exact Hp | exact Hx]).
    clear Hp. induction Hs as [|a m Hs IH Hall]; constructor.
    - apply IH; [now inversion Hnd|]. intros x Hx. apply Hsub. now right.
    - rewrite Forall_forall in *. intros y Hy.
      inversion Hnd as [|? ? Hnotin _]; subst.
      assert (In a l) as Ha by (apply Hsub; now left).
      assert (In y l) as Hyl by (apply Hsub; now right).
      destruct (sorted_comparable Hl a y Ha Hyl) as [Heq|[Hay|Hya]].
      + subst y. contradiction.
      + rewrite (Hall y Hy) in Hay. discriminate.
      + exact Hya. }
  apply strongly_sorted_rev in Hdesc.
  rewrite <- (rev_involutive l'). f_equal.
  symmetry. apply sorted_unique; auto.
  transitivity l'; [exact Hp | apply Permutation_rev].
Qed.

End Sorting.

(** The insertion sort of the sample cluster meets the contract. *)
Lemma insert_perm {A : Type} (less : A -> A -> bool) (x : A) (l : list A) :
  Permutation (x :: l) (Sample.insert less x l).
Proof.
  induction l as [|y l IH]; simpl; [reflexivity|].
  destruct (less x y); [reflexivity|].
  rewrite perm_swap. now constructor.
Qed.

Lemma insert_sorted {A : Type} (less : A -> A -> bool) (x : A) (l : list A) :
  StrictWeakOrder less ->
  Sorted (fun a b => less b a = false) l ->
  Sorted (fun a b => less b a = false) (Sample.insert less x l).
Proof.
  intros Hswo. induction 1 as [|y l Hs IH Hhd]; simpl.
  - repeat constructor.
  - destruct (less x y) eqn:Hxy.
    + constructor; [now constructor|]. constructor. now apply less_asym.
    + constructor; [exact IH|].
      destruct l as [|z l]; simpl.
      * now constructor.
      * destruct (less x z); constructor; auto. now inversion Hhd.
Qed.

Lemma isort_contract {A : Type} : sort_contract (@Sample.isort A).
Proof.
  intros less l Hswo. split.
  - induction l as [|x l IH]; simpl; [reflexivity|].
    rewrite <- insert_perm. now constructor.
  - apply Sorted_StronglySorted.
    + intros x y z Hyx Hzy. exact (swo_negtrans Hswo _ _ _ Hzy Hyx).
    + induction l as [|x l IH]; simpl; [constructor|].
      now apply insert_sorted.
Qed.

Lemma ltb_swo : StrictWeakOrder Nat.ltb.
Proof.
  constructor.
  - intros x. apply Nat.ltb_irrefl.
  - intros x y z. rewrite !Nat.ltb_lt. lia.
  - intros x y z. rewrite !Nat.ltb_ge. lia.
Qed.

(** ** The delete command *)
Module DeleteProps.
Import DeleteCmd.

Section Run.
Variable C : Cluster.

Lemma deleteCalls_app (a b : list (Event C)) :
  deleteCalls (a ++ b) = deleteCalls a ++ deleteCalls b.
Proof. apply flat_map_app. Qed.

Lemma deleteChanges_app (a b : list (Event C)) :
  deleteChanges (a ++ b) = deleteChanges a ++ deleteChanges b.
Proof. apply flat_map_app. Qed.

(** A list of events without [sm.Delete] calls has no delete call, no
    change and no failed delete. *)
Lemma no_delete_calls (t : list (Event C)) :
  Forall (fun e => isDeleteCall e = false) t ->
  deleteCalls t = [] /\ deleteChanges t = [] /\ existsb (@isFailedDelete C) t = false.
Proof.
  induction 1 as [|e t He _ (IH1 & IH2 & IH3)]; [now repeat split|].
  destruct e; try discriminate; simpl; now rewrite ?IH1, ?IH2, ?IH3.
Qed.

Lemma failed_delete_in (t : list (Event C)) :
  existsb (@isFailedDelete C) t = true <->
  exists o opts e, In (DeleteCall o opts (Err e)) t.
Proof.
  rewrite existsb_exists. split.
  - intros (ev & Hin & Hf).
    destruct ev as [| | | |o opts [c|e]| | | |]; try discriminate. eauto.
  - intros (o & opts & e & Hin). eexists. split; [exact Hin|reflexivity].
Qed.

(** The dry-run loop logs one line per object and does nothing else. *)
Lemma dryRunLoop_run (objects : list (Obj C)) :
  forall s,
    dryRunLoop objects s =
    (inl tt, {| world := world s; trace := trace s ++ map (@dryRunLine C) objects |}).
Proof.
  induction objects as [|o objects IH]; intros s; simpl.
  - unfold Run.ret. rewrite app_nil_r. now destruct s.
  - unfold Run.bind, emit. rewrite IH. simpl. now rewrite <- app_assoc.
Qed.

(** The deletion loop calls [sm.Delete] on every object, in order, whatever
    the calls answer, and touches neither the instance record nor the wait. *)
Lemma deleteLoop_run (g : Globals C) (sm : ResourceManager C)
    (objects : list (Obj C)) :
  forall hasErrors cs s,
  exists evs w',
    deleteLoop g sm objects hasErrors cs s =
    (inl (hasErrors || existsb (@isFailedDelete C) evs, cs ++ deleteChanges evs),
     {| world := w'; trace := trace s ++ evs |}) /\
    deleteCalls evs = objects /\
    Forall (fun e => isStorageDelete e = false /\ isWait e = false) evs.
Proof.
  induction objects as [|o objects IH]; intros hasErrors cs s; simpl.
  - exists [], (world s). unfold Run.ret. simpl.
    rewrite orb_false_r, !app_nil_r. destruct s. auto.
  - set (opts := DeleteOptions C (name (deleteArgs g))
                   (Namespace C (kubeconfigArgs g))).
    unfold Run.bind at 1. unfold call at 1.
    destruct (Delete C sm o opts (world s)) as [[change|e] w1]; simpl;
      unfold Run.bind at 1; unfold emit at 1; simpl.
    + destruct (IH hasErrors (ChangeSet_Add cs change)
                  {| world := w1;
                     trace := (trace s ++ [DeleteCall o opts (Ok change)]) ++
                              [LogInfo (ColorizeJoin [VChange change])] |})
        as (evs & w' & Heq & Hcalls & Hall).
      exists (DeleteCall o opts (Ok change) ::
              LogInfo (ColorizeJoin [VChange change]) :: evs), w'.
      rewrite Heq. simpl. unfold ChangeSet_Add. rewrite <- !app_assoc. simpl.
      rewrite Hcalls. repeat split; auto.
    + destruct (IH true cs
                  {| world := w1;
                     trace := (trace s ++ [DeleteCall o opts (Err e)]) ++
                              [LogError (Some e) (Text "deletion failed")] |})
        as (evs & w' & Heq & Hcalls & Hall).
      exists (DeleteCall o opts (Err e) ::
              LogError (Some e) (Text "deletion failed") :: evs), w'.
      rewrite Heq. simpl. rewrite <- !app_assoc. simpl. rewrite orb_true_r.
      rewrite Hcalls. repeat split; auto.
Qed.

(** Once the instance is loaded, the command is the walk over its objects. *)
Lemma loaded_run (g : Globals C) (args : list string) (w : World C) (sm : ResourceManager C)
    (inst : Instance C) (objs : list (Obj C)) (w' : World C) :
  loads g args w sm inst objs w' ->
  runDeleteCmd g args (start C w) =
  Run.exec (Returned None)
    (deleteObjects (withName g (hd EmptyString args)) sm inst objs)
    {| world := w'; trace := loadTrace g args sm inst |}.
Proof.
  destruct args as [|arg0 args]; [contradiction|].
  intros (w1 & Hrm & Hget & Hlist).
  unfold runDeleteCmd, Run.exec, Run.bind, call, start, loadTrace. simpl.
  rewrite Hrm. simpl. rewrite Hget. simpl. rewrite Hlist. reflexivity.
Qed.

(** The shape of a real run on a loaded instance: the load, the announcement,
    the events [evs] of the deletion loop, then the events [post] of what
    follows the loop. *)
Lemma real_run (g : Globals C) (args : list string) (w : World C) (sm : ResourceManager C)
    (inst : Instance C) (objs : list (Obj C)) (w' : World C) :
  loads g args w sm inst objs w' ->
  dryrun (deleteArgs g) = false ->
  exists evs post out w2,
    runDeleteCmd g args (start C w) =
    (out, {| world := w2;
             trace := loadTrace g args sm inst ++
                      LogInfo (Sprintf "deleting %v resource(s)..."
                                 (List.length (deletionOrder C objs))) ::
                      evs ++ post |}) /\
    deleteCalls evs = deletionOrder C objs /\
    Forall (fun e => isStorageDelete e = false /\ isWait e = false) evs /\
    Forall (fun e => isDeleteCall e = false) post /\
    ((existsb (@isFailedDelete C) evs = true /\ post = [] /\ out = Exited 1) \/
     (existsb (@isFailedDelete C) evs = false /\
      exists r,
        let record := StorageDeleteCall (inst_Name C inst) (inst_Namespace C inst) r in
        let deleted := SelectObjectsFromSet (deleteChanges evs) DeletedAction in
        match r with
        | Some e => post = [record] /\ out = Returned (Some e)
        | None =>
            if wait (deleteArgs g) && Nat.ltb 0 (List.length deleted) then
              exists opts r',
                post = [record;
                        SpinnerStart
                          (Sprintf "waiting for %v resource(s) to be finalized..."
                             (List.length deleted));
                        WaitCall deleted opts r';
                        SpinnerStop] ++
                       match r' with
                       | Some _ => []
                       | None => [LogInfo (Text "all resources have been deleted")]
                       end /\
                out = Returned r'
            else post = [record] /\ out = Returned None
        end)).
Proof.
  intros Hload Hreal. rewrite loaded_run with (1 := Hload).
  unfold deleteObjects. fold (deletionOrder C objs).
  replace (dryrun (deleteArgs (withName g (hd EmptyString args)))) with false
    by (symmetry; exact Hreal).
  unfold Run.exec. unfold Run.bind at 1. unfold emit at 1. simpl trace; simpl world.
  unfold Run.bind at 1.
  destruct (deleteLoop_run (withName g (hd EmptyString args)) sm (deletionOrder C objs) false
              NewChangeSet
              {| world := w';
                 trace := loadTrace g args sm inst ++
                   [LogInfo (Sprintf "deleting %v resource(s)..."
                               (List.length (deletionOrder C objs)))] |})
    as (evs & w1 & Heq & Hcalls & Hall).
  rewrite Heq. clear Heq. simpl trace. simpl orb. simpl app.
  exists evs.
  destruct (existsb (@isFailedDelete C) evs) eqn:Hfail.
  - exists [], (Exited 1), w1. simpl. rewrite ?app_nil_r, <- ?app_assoc. simpl.
    repeat split; auto.
  - unfold Run.bind at 1. simpl. unfold Run.bind at 1. unfold call at 1. simpl.
    destruct (Storage_Delete C sm (inst_Name C inst) (inst_Namespace C inst) w1)
      as [[e|] w2]; simpl.
    + exists [StorageDeleteCall (inst_Name C inst) (inst_Namespace C inst) (Some e)],
        (Returned (Some e)), w2.
      rewrite <- ?app_assoc. simpl. repeat split; auto.
      right. split; [reflexivity|]. exists (Some e). auto.
    + unfold waitStep. simpl.
      destruct (wait (deleteArgs g) &&
                Nat.ltb 0 (List.length
                  (SelectObjectsFromSet (deleteChanges evs) DeletedAction))) eqn:Hw.
      * unfold Run.bind, emit, call. simpl.
        destruct (WaitForTermination C sm _ _ w2) as [[e|] w3]; simpl.
        -- eexists _, (Returned (Some e)), w3.
           split; [|split; [exact Hcalls|split; [exact Hall|split]]].
           3:{ right. split; [reflexivity|]. exists None. cbv zeta.
               eexists _, (Some e). split; reflexivity. }
           2:{ repeat constructor. }
           simpl. rewrite <- ?app_assoc. reflexivity.
        -- eexists _, (Returned None), w3.
           split; [|split; [exact Hcalls|split; [exact Hall|split]]].
           3:{ right. split; [reflexivity|]. exists None. cbv zeta.
               eexists _, None. split; reflexivity. }
           2:{ repeat constructor. }
           simpl. rewrite <- ?app_assoc. reflexivity.
      * unfold Run.ret.
        exists [StorageDeleteCall (inst_Name C inst) (inst_Namespace C inst) None],
          (Returned None), w2.
        rewrite <- ?app_assoc. simpl. repeat split; auto.
        right. split; [reflexivity|]. exists None. cbv zeta. auto.
Qed.

(** What a trace of the shape of [real_run] says about the delete calls. *)
Lemma real_trace_reading (pre evs post : list (Event C)) :
  Forall (fun e => isDeleteCall e = false) pre ->
  Forall (fun e => isDeleteCall e = false) post ->
  deleteCalls (pre ++ evs ++ post) = deleteCalls evs /\
  deleteChanges (pre ++ evs ++ post) = deleteChanges evs /\
  existsb (@isFailedDelete C) (pre ++ evs ++ post) = existsb (@isFailedDelete C) evs.
Proof.
  intros Hpre Hpost.
  destruct (@no_delete_calls _ Hpre) as (P1 & P2 & P3).
  destruct (@no_delete_calls _ Hpost) as (Q1 & Q2 & Q3).
  rewrite !deleteCalls_app, !deleteChanges_app, !existsb_app.
  rewrite P1, P2, P3, Q1, Q2, Q3. simpl.
  now rewrite !app_nil_r, orb_false_r.
Qed.

(** [real_run] with the trace read: the delete calls of the whole run are
    those of the loop. *)
Lemma real_run_read (g : Globals C) (args : list string) (w : World C)
    (sm : ResourceManager C) (inst : Instance C) (objs : list (Obj C))
    (w' : World C) :
  loads g args w sm inst objs w' ->
  dryrun (deleteArgs g) = false ->
  let run := runDeleteCmd g args (start C w) in
  deleteCalls (trace (snd run)) = deletionOrder C objs /\
  exists evs post,
    trace (snd run) =
      (loadTrace g args sm inst ++
       [LogInfo (Sprintf "deleting %v resource(s)..."
                   (List.length (deletionOrder C objs)))]) ++ evs ++ post /\
    deleteCalls evs = deletionOrder C objs /\
    deleteChanges (trace (snd run)) = deleteChanges evs /\
    existsb (@isFailedDelete C) (trace (snd run)) = existsb (@isFailedDelete C) evs /\
    Forall (fun e => isStorageDelete e = false /\ isWait e = false) evs /\
    ((existsb (@isFailedDelete C) evs = true /\ post = [] /\ fst run = Exited 1) \/
     (existsb (@isFailedDelete C) evs = false /\
      exists r,
        let record := StorageDeleteCall (inst_Name C inst) (inst_Namespace C inst) r in
        let deleted := SelectObjectsFromSet (deleteChanges evs) DeletedAction in
        match r with
        | Some e => post = [record] /\ fst run = Returned (Some e)
        | None =>
            if wait (deleteArgs g) && Nat.ltb 0 (List.length deleted) then
              exists opts r',
                post = [record;
                        SpinnerStart
                          (Sprintf "waiting for %v resource(s) to be finalized..."
                             (List.length deleted));
                        WaitCall deleted opts r';
                        SpinnerStop] ++
                       match r' with
                       | Some _ => []
                       | None => [LogInfo (Text "all resources have been deleted")]
                       end /\
                fst run = Returned r'
            else post = [record] /\ fst run = Returned None
        end)).
Proof.
  intros Hload Hreal run.
  destruct (@real_run g args w sm inst objs w' Hload Hreal)
    as (evs & post & out & w2 & Hrun & Hcalls & Hall & Hpost & Hshape).
  subst run. rewrite Hrun. cbn [fst snd trace].
  set (announce := LogInfo (Sprintf "deleting %v resource(s)..."
                              (List.length (deletionOrder C objs)))) in *.
  assert (loadTrace g args sm inst ++ announce :: evs ++ post =
          (loadTrace g args sm inst ++ [announce]) ++ evs ++ post) as ->
    by (now rewrite <- app_assoc).
  assert (Forall (fun e : Event C => isDeleteCall e = false)
            (loadTrace g args sm inst ++ [announce])) as Hpre
    by (repeat constructor).
  destruct (@real_trace_reading _ evs _ Hpre Hpost) as (R1 & R2 & R3).
  rewrite R1, R2, R3. split; [exact Hcalls|].
  exists evs, post. repeat (split; [first [reflexivity | assumption]|]).
  exact Hshape.
Qed.

(** C1 (reverse-order invariant).  When the instance's resource list [objs]
    is in canonical order (each resource strictly before the next under
    [SortableUnstructureds.Less]), a deletion run issues its [sm.Delete] calls
    on exactly [rev objs]: the last resource first, the first one last. *)
Theorem delete_calls_in_reverse_order (g : Globals C) (args : list string)
    (w : World C) (sm : ResourceManager C) (inst : Instance C)
    (objs : list (Obj C)) (w' : World C) :
  StrictWeakOrder (Less C) ->
  sort_contract (sort_Sort C) ->
  loads g args w sm inst objs w' ->
  dryrun (deleteArgs g) = false ->
  Sorted (fun x y => Less C x y = true) objs ->
  deleteCalls (trace (snd (runDeleteCmd g args (start C w)))) = rev objs.
Proof.
  intros Hswo Hsort Hload Hreal Hsorted.
  destruct (@real_run_read g args w sm inst objs w' Hload Hreal) as (Hcalls & _).
  rewrite Hcalls. unfold deletionOrder.
  now apply sort_reverse_of_sorted.
Qed.

(** C2 (dry run).  With the dry-run flag set the command never calls
    [sm.Delete], never deletes the instance record and never waits; and once
    the instance is loaded it returns [nil] right after logging one simulated
    [Deleted] line per resource, in deletion order, leaving the world as the
    load left it. *)
Theorem dry_run_reports_and_returns (g : Globals C) (args : list string)
    (w : World C) :
  dryrun (deleteArgs g) = true ->
  let run := runDeleteCmd g args (start C w) in
  Forall (fun e => isMutation e = false /\ isWait e = false) (trace (snd run)) /\
  forall sm inst objs w',
    loads g args w sm inst objs w' ->
    run = (Returned None,
           {| world := w';
              trace := loadTrace g args sm inst ++
                       map (@dryRunLine C) (deletionOrder C objs) |}).
Proof.
  intros Hdry run. split.
  - subst run. destruct args as [|arg0 args]; [constructor|].
    unfold runDeleteCmd, Run.exec, Run.bind, call, start. simpl.
    destruct (NewResourceManager C (kubeconfigArgs g) w) as [[sm|e] w1]; simpl;
      [|now repeat constructor].
    destruct (Storage_Get C sm arg0 (Namespace C (kubeconfigArgs g)) w1)
      as [[inst|e] w2]; simpl; [|now repeat constructor].
    destruct (ListObjects C inst) as [objs|e]; simpl; [|now repeat constructor].
    unfold deleteObjects. simpl. rewrite Hdry.
    unfold Run.bind. rewrite dryRunLoop_run. simpl.
    repeat (constructor; [split; reflexivity|]).
    apply Forall_forall. intros e He. apply in_map_iff in He.
    destruct He as (o & <- & _). split; reflexivity.
  - intros sm inst objs w' Hload. subst run.
    rewrite loaded_run with (1 := Hload).
    unfold deleteObjects, Run.exec. simpl. rewrite Hdry.
    unfold Run.bind. rewrite dryRunLoop_run. reflexivity.
Qed.

(** C3 (partial-failure isolation).  In a real run in which some [sm.Delete]
    call fails, the command still calls [sm.Delete] on every object of the
    deletion order (which, for a sort that meets its contract, is every
    resource of the instance), never deletes the instance record, never
    waits, and ends the process with exit status 1. *)
Theorem failed_delete_exits_without_record_delete (g : Globals C)
    (args : list string) (w : World C) (sm : ResourceManager C)
    (inst : Instance C) (objs : list (Obj C)) (w' : World C) :
  loads g args w sm inst objs w' ->
  dryrun (deleteArgs g) = false ->
  let run := runDeleteCmd g args (start C w) in
  (exists o opts e, In (DeleteCall o opts (Err e)) (trace (snd run))) ->
  fst run = Exited 1 /\
  deleteCalls (trace (snd run)) = deletionOrder C objs /\
  (StrictWeakOrder (Less C) -> sort_contract (sort_Sort C) ->
   Permutation objs (deleteCalls (trace (snd run)))) /\
  Forall (fun e => isStorageDelete e = false /\ isWait e = false)
    (trace (snd run)).
Proof.
  intros Hload Hreal run Hfailed.
  destruct (@real_run_read g args w sm inst objs w' Hload Hreal)
    as (Hcalls & evs & post & Htrace & _ & _ & Hfail & Hall & Hshape).
  fold run in Hcalls, Htrace, Hfail, Hshape.
  apply failed_delete_in in Hfailed. rewrite Hfail in Hfailed.
  destruct Hshape as [(_ & Hpost & Hout)|(Hnone & _)];
    [|rewrite Hnone in Hfailed; discriminate].
  split; [exact Hout|]. split; [exact Hcalls|]. split.
  - intros Hswo Hsort. rewrite Hcalls.
    apply (Hsort (sort_Reverse (Less C)) objs). now apply reverse_swo.
  - rewrite Htrace, Hpost, app_nil_r. apply Forall_app. split; [|exact Hall].
    repeat constructor.
Qed.

(** C4 (all-success path).  In a real run in which no [sm.Delete] call
    fails, the trace splits around one instance-record deletion: every
    [sm.Delete] call comes before it, with no record deletion and no wait
    before it, and neither a [sm.Delete] call nor another record deletion
    comes after it. *)
Theorem record_deleted_once_after_deletes_before_wait (g : Globals C)
    (args : list string) (w : World C) (sm : ResourceManager C)
    (inst : Instance C) (objs : list (Obj C)) (w' : World C) :
  loads g args w sm inst objs w' ->
  dryrun (deleteArgs g) = false ->
  let run := runDeleteCmd g args (start C w) in
  (forall o opts e, ~ In (DeleteCall o opts (Err e)) (trace (snd run))) ->
  exists before r after,
    trace (snd run) =
      before ++
      StorageDeleteCall (inst_Name C inst) (inst_Namespace C inst) r :: after /\
    deleteCalls before = deletionOrder C objs /\
    Forall (fun e => isStorageDelete e = false /\ isWait e = false) before /\
    Forall (fun e => isDeleteCall e = false /\ isStorageDelete e = false) after.
Proof.
  intros Hload Hreal run Hok.
  destruct (@real_run_read g args w sm inst objs w' Hload Hreal)
    as (Hcalls & evs & post & Htrace & Hevs & _ & Hfail & Hall & Hshape).
  fold run in Hcalls, Htrace, Hfail, Hshape.
  destruct Hshape as [(Hsome & _)|(_ & r & Hr)].
  { rewrite <- Hfail in Hsome. apply failed_delete_in in Hsome.
    destruct Hsome as (o & opts & e & Hin). now destruct (Hok o opts e). }
  set (pre := loadTrace g args sm inst ++
              [LogInfo (Sprintf "deleting %v resource(s)..."
                          (List.length (deletionOrder C objs)))]) in *.
  assert (deleteCalls (pre ++ evs) = deletionOrder C objs) as Hbefore
    by (rewrite deleteCalls_app, Hevs; reflexivity).
  assert (Forall (fun e : Event C => isStorageDelete e = false /\ isWait e = false)
            (pre ++ evs)) as Hquiet
    by (apply Forall_app; split; [repeat constructor | exact Hall]).
  cbv zeta in Hr. destruct r as [e|].
  - destruct Hr as (Hpost & _).
    exists (pre ++ evs), (Some e), [].
    rewrite Htrace, Hpost, app_assoc. repeat split; auto.
  - destruct (wait (deleteArgs g) && _).
    + destruct Hr as (opts & r' & Hpost & _).
      eexists (pre ++ evs), None, _.
      rewrite Htrace, Hpost, app_assoc. split; [reflexivity|].
      repeat split; auto. destruct r'; repeat constructor.
    + destruct Hr as (Hpost & _).
      exists (pre ++ evs), None, [].
      rewrite Htrace, Hpost, app_assoc. repeat split; auto.
Qed.

(** C9.  In a real run in which no [sm.Delete] call fails but the deletion
    of the instance record fails with [e], the command returns [e] and never
    waits, whatever the wait flag and the change set. *)
Theorem record_delete_failure_returned (g : Globals C)
    (args : list string) (w : World C) (sm : ResourceManager C)
    (inst : Instance C) (objs : list (Obj C)) (w' : World C)
    (n ns : string) (e : error (ExtErr C)) :
  loads g args w sm inst objs w' ->
  dryrun (deleteArgs g) = false ->
  let run := runDeleteCmd g args (start C w) in
  (forall o opts e', ~ In (DeleteCall o opts (Err e')) (trace (snd run))) ->
  In (StorageDeleteCall n ns (Some e)) (trace (snd run)) ->
  fst run = Returned (Some e) /\
  existsb (@isWait C) (trace (snd run)) = false.
Proof.
  intros Hload Hreal run Hok Hrec.
  destruct (@real_run_read g args w sm inst objs w' Hload Hreal)
    as (Hcalls & evs & post & Htrace & Hevs & Hchanges & Hfail & Hall & Hshape).
  fold run in Hcalls, Htrace, Hchanges, Hfail, Hshape.
  destruct Hshape as [(Hsome & _)|(_ & r & Hr)].
  { rewrite <- Hfail in Hsome. apply failed_delete_in in Hsome.
    destruct Hsome as (o & opts & e' & Hin). now destruct (Hok o opts e'). }
  set (pre := loadTrace g args sm inst ++
              [LogInfo (Sprintf "deleting %v resource(s)..."
                          (List.length (deletionOrder C objs)))]) in *.
  assert (Forall (fun ev : Event C => isStorageDelete ev = false /\ isWait ev = false)
            (pre ++ evs)) as Hquiet
    by (apply Forall_app; split; [repeat constructor | exact Hall]).
  assert (existsb (@isWait C) (pre ++ evs) = false) as Hnowait.
  { clear -Hquiet. induction Hquiet as [|ev l (_ & He) _ IH]; simpl; auto.
    now rewrite He. }
  assert (~ In (StorageDeleteCall n ns (Some e)) (pre ++ evs)) as Hnotin.
  { intros Hin. rewrite Forall_forall in Hquiet.
    destruct (Hquiet _ Hin) as (Hs & _). discriminate. }
  rewrite Htrace, app_assoc in Hrec. apply in_app_or in Hrec.
  destruct Hrec as [Hrec|Hrec]; [contradiction|].
  rewrite Htrace, app_assoc, existsb_app, Hnowait.
  cbv zeta in Hr. destruct r as [e0|].
  - destruct Hr as (Hpost & Hout). rewrite Hpost in *.
    destruct Hrec as [Heq|[]]. injection Heq as _ _ <-. auto.
  - exfalso. destruct (wait (deleteArgs g) && _).
    + destruct Hr as (opts & r' & Hpost & _). rewrite Hpost in Hrec.
      simpl in Hrec. destruct r'; simpl in Hrec;
        repeat (destruct Hrec as [Hrec|Hrec]; [discriminate|]); exact Hrec.
    + destruct Hr as (Hpost & _). rewrite Hpost in Hrec.
      destruct Hrec as [Hrec|[]]. discriminate.
Qed.

(** C10, amended.  For an instance that owns no resource, a real run calls
    [sm.Delete] on nothing, issues the deletion of the instance record, does
    not wait whatever the wait flag, and returns what the record deletion
    returned: [nil] when it succeeds, its error when it fails. *)
Theorem empty_instance_deletes_record_only (g : Globals C)
    (args : list string) (w : World C) (sm : ResourceManager C)
    (inst : Instance C) (w' : World C) :
  StrictWeakOrder (Less C) ->
  sort_contract (sort_Sort C) ->
  loads g args w sm inst [] w' ->
  dryrun (deleteArgs g) = false ->
  exists r w'',
    Storage_Delete C sm (inst_Name C inst) (inst_Namespace C inst) w' = (r, w'') /\
    runDeleteCmd g args (start C w) =
    (Returned r,
     {| world := w'';
        trace := loadTrace g args sm inst ++
                 [LogInfo (Sprintf "deleting %v resource(s)..." 0);
                  StorageDeleteCall (inst_Name C inst) (inst_Namespace C inst) r] |}).
Proof.
  intros Hswo Hsort Hload Hreal.
  rewrite loaded_run with (1 := Hload).
  unfold deleteObjects.
  rewrite (sort_nil Hsort (reverse_swo Hswo)).
  replace (dryrun (deleteArgs (withName g (hd EmptyString args)))) with false
    by (symmetry; exact Hreal).
  unfold Run.exec, Run.bind, emit, call, Run.ret. simpl.
  destruct (Storage_Delete C sm (inst_Name C inst) (inst_Namespace C inst) w')
    as [[e|] w''].
  - exists (Some e), w''. split; reflexivity.
  - exists None, w''. split; [reflexivity|].
    unfold waitStep. simpl. rewrite andb_false_r. reflexivity.
Qed.

End Run.

(** *** The theorems at work on the sample cluster *)

Lemma sample_loads (dry waiting : bool) (w : Sample.cluster_state) :
  loads (Sample.globals dry waiting) ["app"] w tt
    (Sample.inventory w) (Sample.inventory w) w.
Proof. exists w. repeat split; reflexivity. Qed.

Lemma delete_calls_in_reverse_order_witness :
  deleteCalls
    (trace (snd (runDeleteCmd (Sample.globals false true) ["app"]
                   (start Sample.cluster Sample.healthy)))) = [3; 2; 1].
Proof.
  apply (@delete_calls_in_reverse_order Sample.cluster
           (Sample.globals false true) ["app"] Sample.healthy tt
           [1; 2; 3] [1; 2; 3] Sample.healthy).
  - exact ltb_swo.
  - exact isort_contract.
  - exact (sample_loads false true Sample.healthy).
  - reflexivity.
  - repeat constructor.
Defined.

Lemma dry_run_reports_and_returns_witness :
  let run := runDeleteCmd (Sample.globals true true) ["app"]
               (start Sample.cluster Sample.healthy) in
  Forall (fun e => isMutation e = false /\ isWait e = false) (trace (snd run)) /\
  run = (Returned None,
         @Build_State Sample.cluster Sample.healthy
           (loadTrace (Sample.globals true true) ["app"] tt [1; 2; 3] ++
            map (@dryRunLine Sample.cluster) [3; 2; 1])).
Proof.
  destruct (@dry_run_reports_and_returns Sample.cluster
              (Sample.globals true true) ["app"] Sample.healthy eq_refl)
    as [Hquiet Hrun].
  split; [exact Hquiet|].
  exact (Hrun tt [1; 2; 3] [1; 2; 3] Sample.healthy
           (sample_loads true true Sample.healthy)).
Defined.

Lemma failed_delete_exits_without_record_delete_witness :
  let run := runDeleteCmd (Sample.globals false true) ["app"]
               (start Sample.cluster Sample.guarded) in
  fst run = Exited 1 /\
  deleteCalls (trace (snd run)) = [3; 2; 1] /\
  Forall (fun e => isStorageDelete e = false /\ isWait e = false)
    (trace (snd run)).
Proof.
  destruct (@failed_delete_exits_without_record_delete Sample.cluster
              (Sample.globals false true) ["app"] Sample.guarded tt
              [1; 2; 3] [1; 2; 3] Sample.guarded
              (sample_loads false true Sample.guarded) eq_refl)
    as (Hexit & Hcalls & _ & Hquiet).
  - exists 2, ("app", "default"), (External "forbidden").
    vm_compute. tauto.
  - repeat split; assumption.
Defined.

Lemma record_deleted_once_after_deletes_before_wait_witness :
  exists before r after,
    trace (snd (runDeleteCmd (Sample.globals false true) ["app"]
                  (start Sample.cluster Sample.healthy))) =
      before ++ StorageDeleteCall "app" "default" r :: after /\
    deleteCalls before = [3; 2; 1] /\
    Forall (fun e => isStorageDelete e = false /\ isWait e = false) before /\
    Forall (fun e => isDeleteCall e = false /\ isStorageDelete e = false) after.
Proof.
  apply (@record_deleted_once_after_deletes_before_wait Sample.cluster
           (Sample.globals false true) ["app"] Sample.healthy tt
           [1; 2; 3] [1; 2; 3] Sample.healthy
           (sample_loads false true Sample.healthy) eq_refl).
  intros o opts e. vm_compute. intros H.
  repeat (destruct H as [H|H]; [discriminate|]). exact H.
Defined.


Lemma record_delete_failure_returned_witness :
  let run := runDeleteCmd (Sample.globals false true) ["app"]
               (start Sample.cluster Sample.locked_record) in
  fst run = Returned (Some (External "record is locked")) /\
  existsb (@isWait Sample.cluster) (trace (snd run)) = false.
Proof.
  apply (@record_delete_failure_returned Sample.cluster
           (Sample.globals false true) ["app"] Sample.locked_record tt
           [1] [1] Sample.locked_record "app" "default"
           (External "record is locked")
           (sample_loads false true Sample.locked_record) eq_refl).
  - intros o opts e. vm_compute. intros H.
    repeat (destruct H as [H|H]; [discriminate|]). exact H.
  - vm_compute. tauto.
Defined.

(** C10 as stated fails: the instance owns nothing, the record deletion
    fails, and the command returns that error, not success. *)
Lemma empty_instance_run_can_fail :
  ~ (loads (Sample.globals false true) ["app"] Sample.locked_empty tt [] []
       Sample.locked_empty ->
     let run := runDeleteCmd (Sample.globals false true) ["app"]
                  (start Sample.cluster Sample.locked_empty) in
     deleteCalls (trace (snd run)) = [] /\
     existsb (@isStorageDelete Sample.cluster) (trace (snd run)) = true /\
     existsb (@isWait Sample.cluster) (trace (snd run)) = false /\
     fst run = Returned None).
Proof.
  intros H.
  destruct (H (sample_loads false true Sample.locked_empty)) as (_ & _ & _ & Hret).
  vm_compute in Hret. discriminate.
Qed.

Lemma empty_instance_deletes_record_only_witness :
  exists r w'',
    Sample.sample_Storage_Delete tt "app" "default" Sample.healthy_empty = (r, w'') /\
    runDeleteCmd (Sample.globals false true) ["app"]
      (start Sample.cluster Sample.healthy_empty) =
    (Returned r,
     @Build_State Sample.cluster w''
       (loadTrace (Sample.globals false true) ["app"] tt [] ++
        [LogInfo (Sprintf "deleting %v resource(s)..." 0);
         @StorageDeleteCall Sample.cluster "app" "default" r])).
Proof.
  apply (@empty_instance_deletes_record_only Sample.cluster
           (Sample.globals false true) ["app"] Sample.healthy_empty tt []
           Sample.healthy_empty ltb_swo isort_contract
           (sample_loads false true Sample.healthy_empty) eq_refl).
Defined.


(** *** The whole command, on any input *)
Section Whole.
Variable C : Cluster.

Lemma deleteLoop_full (g : Globals C) (sm : ResourceManager C)
    (objects : list (Obj C)) :
  forall hasErrors cs s,
  exists results w',
    List.length results = List.length objects /\
    deleteLoop g sm objects hasErrors cs s =
    (inl (hasErrors || existsb isErr results, cs ++ oks results),
     {| world := w';
        trace := trace s ++
                 loopEvents (DeleteOptions C (name (deleteArgs g))
                               (Namespace C (kubeconfigArgs g)))
                   objects results |}).
Proof.
  induction objects as [|o objects IH]; intros hasErrors cs s; simpl.
  - exists [], (world s). unfold Run.ret. simpl.
    rewrite orb_false_r, !app_nil_r. destruct s. auto.
  - set (opts := DeleteOptions C (name (deleteArgs g))
                   (Namespace C (kubeconfigArgs g))) in *.
    unfold Run.bind at 1. unfold call at 1.
    destruct (Delete C sm o opts (world s)) as [[change|e] w1]; simpl;
      unfold Run.bind at 1; unfold emit at 1; simpl.
    + destruct (IH hasErrors (ChangeSet_Add cs change)
                  {| world := w1;
                     trace := (trace s ++ [DeleteCall o opts (Ok change)]) ++
                              [LogInfo (ColorizeJoin [VChange change])] |})
        as (results & w' & Hlen & Heq).
      exists (Ok change :: results), w'. rewrite Heq. simpl.
      unfold ChangeSet_Add, loopEvents. simpl. rewrite <- !app_assoc. simpl.
      split; [now rewrite Hlen|reflexivity].
    + destruct (IH true cs
                  {| world := w1;
                     trace := (trace s ++ [DeleteCall o opts (Err e)]) ++
                              [LogError (Some e) (Text "deletion failed")] |})
        as (results & w' & Hlen & Heq).
      exists (Err e :: results), w'. rewrite Heq. simpl.
      unfold loopEvents. simpl. rewrite <- !app_assoc. simpl.
      rewrite orb_true_r. split; [now rewrite Hlen|reflexivity].
Qed.

(** What the events of the loop say, read back. *)
Lemma loopEvents_reading (opts : DeleteOptionsT C) (objects : list (Obj C)) :
  forall results,
    List.length results = List.length objects ->
    deleteCalls (loopEvents opts objects results) = objects /\
    deleteChanges (loopEvents opts objects results) = oks results /\
    existsb (@isFailedDelete C) (loopEvents opts objects results) =
      existsb isErr results.
Proof.
  induction objects as [|o objects IH]; intros [|r results] Hlen;
    try discriminate; [now repeat split|].
  injection Hlen as Hlen. destruct (IH results Hlen) as (H1 & H2 & H3).
  unfold loopEvents in *. simpl. rewrite H1, H2, H3.
  destruct r; now repeat split.
Qed.

Lemma loopEvents_in (opts : DeleteOptionsT C) (objects : list (Obj C))
    (ev : Event C) :
  forall results,
    In ev (loopEvents opts objects results) ->
    exists o r, In (DeleteCall o opts r) (loopEvents opts objects results) /\
                In ev (deleteEvents opts o r).
Proof.
  induction objects as [|o objects IH]; intros [|r results] Hin;
    try (now destruct Hin).
  unfold loopEvents in *. simpl in Hin.
  destruct Hin as [<-|[<-|Hin]].
  - exists o, r. split; [now left|now left].
  - exists o, r. split; [now left|right; now left].
  - destruct (IH results Hin) as (o' & r' & Hcall & Hev).
    exists o', r'. split; [|exact Hev]. simpl. right. right. exact Hcall.
Qed.

Lemma loopEvents_logged (opts : DeleteOptionsT C) (objects : list (Obj C))
    (o : Obj C) (opts' : DeleteOptionsT C)
    (r : result (ExtErr C) (ChangeSetEntry (Obj C))) :
  forall results,
    In (DeleteCall o opts' r) (loopEvents opts objects results) ->
    opts' = opts /\
    forall ev, In ev (deleteEvents opts o r) ->
               In ev (loopEvents opts objects results).
Proof.
  induction objects as [|o0 objects IH]; intros [|r0 results] Hin;
    try (now destruct Hin).
  unfold loopEvents in *. simpl in Hin.
  destruct Hin as [Heq|[Heq|Hin]].
  - injection Heq as -> -> ->. split; [reflexivity|].
    intros ev [<-|[<-|[]]]; simpl; auto.
  - destruct r0; discriminate.
  - destruct (IH results Hin) as (Hopts & Hall). split; [exact Hopts|].
    intros ev Hev. simpl. right. right. now apply Hall.
Qed.

(** The shape of a real run on a loaded instance, with the events of the
    loop spelled out from the answers [results] of its [sm.Delete] calls. *)
Lemma real_run_full (g : Globals C) (args : list string) (w : World C)
    (sm : ResourceManager C) (inst : Instance C) (objs : list (Obj C))
    (w' : World C) :
  loads g args w sm inst objs w' ->
  dryrun (deleteArgs g) = false ->
  exists results post out w2,
    List.length results = List.length (deletionOrder C objs) /\
    runDeleteCmd g args (start C w) =
    (out, {| world := w2;
             trace := (loadTrace g args sm inst ++
                       [LogInfo (Sprintf "deleting %v resource(s)..."
                                   (List.length (deletionOrder C objs)))]) ++
                      loopEvents (scopedOptions g args) (deletionOrder C objs)
                        results ++ post |}) /\
    afterLoop g inst results post out.
Proof.
  intros Hload Hreal. rewrite loaded_run with (1 := Hload).
  unfold deleteObjects. fold (deletionOrder C objs).
  replace (dryrun (deleteArgs (withName g (hd EmptyString args)))) with false
    by (symmetry; exact Hreal).
  unfold Run.exec. unfold Run.bind at 1. unfold emit at 1. simpl trace; simpl world.
  unfold Run.bind at 1.
  destruct (deleteLoop_full (withName g (hd EmptyString args)) sm
              (deletionOrder C objs) false NewChangeSet
              {| world := w';
                 trace := loadTrace g args sm inst ++
                   [LogInfo (Sprintf "deleting %v resource(s)..."
                               (List.length (deletionOrder C objs)))] |})
    as (results & w1 & Hlen & Heq).
  rewrite Heq. clear Heq. simpl trace. simpl orb. simpl app.
  change (DeleteOptions C (name (deleteArgs (withName g (hd EmptyString args))))
            (Namespace C (kubeconfigArgs (withName g (hd EmptyString args)))))
    with (scopedOptions g args).
  exists results.
  destruct (existsb isErr results) eqn:Hfail.
  - exists [], (Exited 1), w1. simpl. rewrite app_nil_r.
    split; [exact Hlen|]. split; [reflexivity|]. now constructor.
  - unfold Run.bind at 1. simpl. unfold Run.bind at 1. unfold call at 1. simpl.
    destruct (Storage_Delete C sm (inst_Name C inst) (inst_Namespace C inst) w1)
      as [[e|] w2]; simpl.
    + exists [StorageDeleteCall (inst_Name C inst) (inst_Namespace C inst) (Some e)],
        (Returned (Some e)), w2.
      rewrite <- ?app_assoc. simpl. split; [exact Hlen|]. split; [reflexivity|].
      now constructor.
    + unfold waitStep. simpl.
      fold (waitOptions g).
      destruct (wait (deleteArgs g) &&
                Nat.ltb 0 (List.length
                  (SelectObjectsFromSet (oks results) DeletedAction))) eqn:Hw.
      * apply andb_true_iff in Hw. destruct Hw as [Hwait Hsome].
        assert (SelectObjectsFromSet (oks results) DeletedAction <> []) as Hne
          by (intros Hnil; rewrite Hnil in Hsome; discriminate).
        unfold Run.bind, emit, call. simpl.
        destruct (WaitForTermination C sm _ _ w2) as [[e|] w3]; simpl.
        -- eexists _, (Returned (Some e)), w3.
           split; [exact Hlen|split].
           2:{ exact (@AfterWait C g inst results (Some e) Hfail Hwait Hne). }
           simpl. rewrite <- ?app_assoc. reflexivity.
        -- eexists _, (Returned None), w3.
           split; [exact Hlen|split].
           2:{ exact (@AfterWait C g inst results None Hfail Hwait Hne). }
           simpl. rewrite <- ?app_assoc. reflexivity.
      * unfold Run.ret.
        exists [StorageDeleteCall (inst_Name C inst) (inst_Namespace C inst) None],
          (Returned None), w2.
        rewrite <- ?app_assoc. simpl. split; [exact Hlen|]. split; [reflexivity|].
        now constructor.
Qed.

(** A loaded dry run: the load, then one line per object. *)
Lemma dry_run_loaded (g : Globals C) (args : list string) (w : World C)
    (sm : ResourceManager C) (inst : Instance C) (objs : list (Obj C))
    (w' : World C) :
  loads g args w sm inst objs w' ->
  dryrun (deleteArgs g) = true ->
  runDeleteCmd g args (start C w) =
  (Returned None,
   {| world := w';
      trace := loadTrace g args sm inst ++
               map (@dryRunLine C) (deletionOrder C objs) |}).
Proof.
  intros Hload Hdry. rewrite loaded_run with (1 := Hload).
  unfold deleteObjects, Run.exec. simpl. rewrite Hdry.
  unfold Run.bind. rewrite dryRunLoop_run. reflexivity.
Qed.

(** Either lines 70-95 load the instance, or the command returns the error
    of the step that failed, having done nothing but those calls. *)
Lemma load_or_fail (g : Globals C) (args : list string) (w : World C) :
  (exists sm inst objs w', loads g args w sm inst objs w') \/
  ((forall sm inst objs w', ~ loads g args w sm inst objs w') /\
   exists e s',
     runDeleteCmd g args (start C w) = (Returned (Some e), s') /\
     Forall (fun ev => isPrelude ev = true) (trace s') /\
     (args = [] -> e = Errorf "name is required" /\ s' = start C w)).
Proof.
  destruct args as [|arg0 args].
  { right. split; [intros sm inst objs w' []|].
    exists (Errorf "name is required"), (start C w). repeat split; constructor. }
  destruct (NewResourceManager C (kubeconfigArgs g) w) as [[sm|e] w1] eqn:Hrm.
  2:{ right. split.
      - intros sm inst objs w' (w2 & H1 & _). rewrite Hrm in H1. discriminate.
      - exists e, {| world := w1; trace := [NewResourceManagerCall (Err e)] |}.
        split; [|split; [repeat constructor|discriminate]].
        unfold runDeleteCmd, Run.exec, Run.bind, call, start. simpl.
        rewrite Hrm. reflexivity. }
  destruct (Storage_Get C sm arg0 (Namespace C (kubeconfigArgs g)) w1)
    as [[inst|e] w2] eqn:Hget.
  2:{ right. split.
      - intros sm' inst objs w' (w3 & H1 & H2 & _).
        rewrite Hrm in H1. injection H1 as <- <-.
        rewrite Hget in H2. discriminate.
      - exists e, {| world := w2;
                     trace := [NewResourceManagerCall (Ok sm);
                               StorageGetCall arg0
                                 (Namespace C (kubeconfigArgs g)) (Err e)] |}.
        split; [|split; [repeat constructor|discriminate]].
        unfold runDeleteCmd, Run.exec, Run.bind, call, start. simpl.
        rewrite Hrm. simpl. rewrite Hget. reflexivity. }
  destruct (ListObjects C inst) as [objs|e] eqn:Hlist.
  - left. exists sm, inst, objs, w2. exists w1. auto.
  - right. split.
    + intros sm' inst' objs w' (w3 & H1 & H2 & H3).
      rewrite Hrm in H1. injection H1 as <- <-.
      rewrite Hget in H2. injection H2 as <- <-.
      rewrite Hlist in H3. discriminate.
    + exists e, {| world := w2;
                   trace := [NewResourceManagerCall (Ok sm);
                             StorageGetCall arg0
                               (Namespace C (kubeconfigArgs g)) (Ok inst)] |}.
      split; [|split; [repeat constructor|discriminate]].
      unfold runDeleteCmd, Run.exec, Run.bind, call, start. simpl.
      rewrite Hrm. simpl. rewrite Hget. simpl. rewrite Hlist. reflexivity.
Qed.

(** Every run is of one of three kinds: the load fails; a loaded dry run; a
    loaded real run. *)
Lemma run_shape (g : Globals C) (args : list string) (w : World C) :
  let run := runDeleteCmd g args (start C w) in
  ((forall sm inst objs w', ~ loads g args w sm inst objs w') /\
   exists e,
     fst run = Returned (Some e) /\
     Forall (fun ev => isPrelude ev = true) (trace (snd run)) /\
     (args = [] -> e = Errorf "name is required" /\ snd run = start C w)) \/
  (exists sm inst objs w',
     loads g args w sm inst objs w' /\
     dryrun (deleteArgs g) = true /\
     fst run = Returned None /\
     trace (snd run) =
       loadTrace g args sm inst ++ map (@dryRunLine C) (deletionOrder C objs)) \/
  (exists sm inst objs w' results post,
     loads g args w sm inst objs w' /\
     dryrun (deleteArgs g) = false /\
     List.length results = List.length (deletionOrder C objs) /\
     trace (snd run) =
       (loadTrace g args sm inst ++
        [LogInfo (Sprintf "deleting %v resource(s)..."
                    (List.length (deletionOrder C objs)))]) ++
       loopEvents (scopedOptions g args) (deletionOrder C objs) results ++ post /\
     afterLoop g inst results post (fst run)).
Proof.
  intros run. subst run.
  destruct (load_or_fail g args w)
    as [(sm & inst & objs & w' & Hload)|(Hno & e & s' & Hrun & Hpre & Hnil)].
  - destruct (dryrun (deleteArgs g)) eqn:Hdry.
    + right. left. exists sm, inst, objs, w'.
      rewrite (@dry_run_loaded g args w sm inst objs w' Hload Hdry). auto.
    + right. right.
      destruct (@real_run_full g args w sm inst objs w' Hload Hdry)
        as (results & post & out & w2 & Hlen & Hrun & Hafter).
      exists sm, inst, objs, w', results, post. rewrite Hrun. auto.
  - left. split; [exact Hno|]. exists e. rewrite Hrun. auto.
Qed.

Lemma afterLoop_no_delete (g : Globals C) (inst : Instance C)
    (results : list (result (ExtErr C) (ChangeSetEntry (Obj C))))
    (post : list (Event C)) (out : Outcome (ExtErr C)) :
  afterLoop g inst results post out ->
  Forall (fun e => isDeleteCall e = false /\ isPrelude e = false) post.
Proof.
  destruct 1 as [| | |[e|]]; repeat constructor.
Qed.

Lemma prelude_no_delete (t : list (Event C)) :
  Forall (fun ev => isPrelude ev = true) t ->
  Forall (fun ev => isDeleteCall ev = false /\ isStorageDelete ev = false /\
                    isWait ev = false /\ isLog ev = false) t.
Proof.
  induction 1 as [|ev t Hev _ IH]; constructor; [|exact IH].
  destruct ev; try discriminate; auto.
Qed.

(** Reading the trace of a real run: its delete calls, changes and failures
    are those of the loop. *)
Lemma real_trace_full (g : Globals C) (args : list string)
    (sm : ResourceManager C) (inst : Instance C) (objs : list (Obj C))
    (results : list (result (ExtErr C) (ChangeSetEntry (Obj C))))
    (post : list (Event C)) (out : Outcome (ExtErr C)) :
  List.length results = List.length objs ->
  afterLoop g inst results post out ->
  let t := (loadTrace g args sm inst ++
            [LogInfo (Sprintf "deleting %v resource(s)..." (List.length objs))]) ++
           loopEvents (scopedOptions g args) objs results ++ post in
  deleteCalls t = objs /\
  deleteChanges t = oks results /\
  existsb (@isFailedDelete C) t = existsb isErr results.
Proof.
  intros Hlen Hafter t. subst t.
  destruct (loopEvents_reading (scopedOptions g args) objs results Hlen)
    as (L1 & L2 & L3).
  assert (Forall (fun e : Event C => isDeleteCall e = false) post) as Hpost.
  { apply afterLoop_no_delete in Hafter. rewrite Forall_forall in *.
    intros e He. now destruct (Hafter e He). }
  assert (Forall (fun e : Event C => isDeleteCall e = false)
            (loadTrace g args sm inst ++
             [LogInfo (Sprintf "deleting %v resource(s)..." (List.length objs))]))
    as Hpre by (repeat constructor).
  destruct (@real_trace_reading C _ (loopEvents (scopedOptions g args) objs results)
              _ Hpre Hpost) as (R1 & R2 & R3).
  rewrite R1, R2, R3. auto.
Qed.

Lemma existsb_false_of_Forall {A : Type} (f : A -> bool) (l : list A) :
  Forall (fun x => f x = false) l -> existsb f l = false.
Proof.
  induction 1 as [|x l Hx _ IH]; simpl; [reflexivity|]. now rewrite Hx.
Qed.

(** The loop touches neither the instance record nor the wait. *)
Lemma loopEvents_quiet (opts : DeleteOptionsT C) (objects : list (Obj C))
    (results : list (result (ExtErr C) (ChangeSetEntry (Obj C)))) :
  Forall (fun e => isStorageDelete e = false /\ isWait e = false /\
                   isPrelude e = false)
    (loopEvents opts objects results).
Proof.
  apply Forall_forall. intros ev Hev. apply loopEvents_in in Hev.
  destruct Hev as (o & r & _ & [<-|[<-|[]]]); [now repeat split|].
  destruct r; now repeat split.
Qed.

(** X1 (preconditions fail fast).  When lines 70-95 do not load the
    instance, the command returns the error of the step that failed and its
    trace holds nothing but the calls made up to that step: no log line, no
    deletion, no wait.  With no argument the error is [name is required] and
    nothing is called; otherwise the error is the one [NewResourceManager]
    answered, or the one [iStorage.Get] answered, or the one [ListObjects]
    answers for the fetched instance, and the trace ends with the call that
    failed, or with the fetch when listing failed. *)
Theorem failed_load_returns_error_untouched (g : Globals C)
    (args : list string) (w : World C) :
  (forall sm inst objs w', ~ loads g args w sm inst objs w') ->
  let run := runDeleteCmd g args (start C w) in
  let ns := Namespace C (kubeconfigArgs g) in
  exists e,
    fst run = Returned (Some e) /\
    Forall (fun ev => isDeleteCall ev = false /\ isStorageDelete ev = false /\
                      isWait ev = false /\ isLog ev = false) (trace (snd run)) /\
    (args = [] -> e = Errorf "name is required" /\ snd run = start C w) /\
    ((args = [] /\ e = Errorf "name is required") \/
     (exists arg0 rest w1,
        args = arg0 :: rest /\
        NewResourceManager C (kubeconfigArgs g) w = (Err e, w1) /\
        snd run = {| world := w1; trace := [NewResourceManagerCall (Err e)] |}) \/
     (exists arg0 rest sm w1 w2,
        args = arg0 :: rest /\
        NewResourceManager C (kubeconfigArgs g) w = (Ok sm, w1) /\
        Storage_Get C sm arg0 ns w1 = (Err e, w2) /\
        snd run = {| world := w2;
                     trace := [NewResourceManagerCall (Ok sm);
                               StorageGetCall arg0 ns (Err e)] |}) \/
     (exists arg0 rest sm inst w1 w2,
        args = arg0 :: rest /\
        NewResourceManager C (kubeconfigArgs g) w = (Ok sm, w1) /\
        Storage_Get C sm arg0 ns w1 = (Ok inst, w2) /\
        ListObjects C inst = Err e /\
        snd run = {| world := w2;
                     trace := [NewResourceManagerCall (Ok sm);
                               StorageGetCall arg0 ns (Ok inst)] |})).
Proof.
  intros Hno run ns. subst run ns.
  destruct args as [|arg0 rest].
  { exists (Errorf "name is required"). simpl.
    split; [reflexivity|]. split; [constructor|]. split; [auto|]. left. auto. }
  unfold runDeleteCmd, Run.exec, Run.bind, call, start. simpl.
  destruct (NewResourceManager C (kubeconfigArgs g) w) as [[sm|e] w1] eqn:Hrm; simpl.
  2:{ exists e. split; [reflexivity|]. split; [repeat constructor|].
      split; [discriminate|]. right. left. exists arg0, rest, w1. auto. }
  destruct (Storage_Get C sm arg0 (Namespace C (kubeconfigArgs g)) w1)
    as [[inst|e] w2] eqn:Hget; simpl.
  2:{ exists e. split; [reflexivity|]. split; [repeat constructor|].
      split; [discriminate|]. right. right. left.
      exists arg0, rest, sm, w1, w2. auto. }
  destruct (ListObjects C inst) as [objs|e] eqn:Hlist; simpl.
  - exfalso. apply (Hno sm inst objs w2). exists w1. auto.
  - exists e. split; [reflexivity|]. split; [repeat constructor|].
    split; [discriminate|]. right. right. right.
    exists arg0, rest, sm, inst, w1, w2. auto.
Qed.

(** X2 (scoped delete options).  Every [sm.Delete] call of the command, on
    any input, carries the options built from the first argument and the
    namespace of the kubeconfig. *)
Theorem delete_calls_use_instance_options (g : Globals C)
    (args : list string) (w : World C) (o : Obj C) (opts : DeleteOptionsT C)
    (r : result (ExtErr C) (ChangeSetEntry (Obj C))) :
  In (DeleteCall o opts r) (trace (snd (runDeleteCmd g args (start C w)))) ->
  exists arg0 rest,
    args = arg0 :: rest /\
    opts = DeleteOptions C arg0 (Namespace C (kubeconfigArgs g)).
Proof.
  intros Hin.
  destruct (run_shape g args w)
    as [(_ & e & _ & Hpre & _)
       |[(sm & inst & objs & w' & _ & _ & _ & Ht)
        |(sm & inst & objs & w' & results & post & Hload & _ & _ & Ht & Hafter)]].
  - apply prelude_no_delete in Hpre. rewrite Forall_forall in Hpre.
    destruct (Hpre _ Hin) as (Hd & _). discriminate.
  - rewrite Ht in Hin. apply in_app_or in Hin. destruct Hin as [Hin|Hin].
    + simpl in Hin. destruct Hin as [Hin|[Hin|[]]]; discriminate.
    + apply in_map_iff in Hin. destruct Hin as (x & Hx & _). discriminate.
  - rewrite Ht in Hin.
    apply in_app_or in Hin. destruct Hin as [Hin|Hin].
    { apply in_app_or in Hin. destruct Hin as [Hin|[Hin|[]]]; [|discriminate].
      simpl in Hin. destruct Hin as [Hin|[Hin|[]]]; discriminate. }
    apply in_app_or in Hin. destruct Hin as [Hin|Hin].
    + apply loopEvents_logged in Hin. destruct Hin as (-> & _).
      destruct args as [|arg0 rest]; [destruct Hload|].
      exists arg0, rest. split; reflexivity.
    + apply afterLoop_no_delete in Hafter. rewrite Forall_forall in Hafter.
      destruct (Hafter _ Hin) as (Hd & _). discriminate.
Qed.

(** X3 (exit status).  The command ends the process only with status 1, only
    in a real run and only after an [sm.Delete] call failed; it has then not
    touched the instance record. *)
Theorem exit_only_after_failed_delete (g : Globals C)
    (args : list string) (w : World C) (code : Z) :
  let run := runDeleteCmd g args (start C w) in
  fst run = Exited code ->
  code = 1%Z /\
  dryrun (deleteArgs g) = false /\
  (exists o opts e, In (DeleteCall o opts (Err e)) (trace (snd run))) /\
  existsb (@isStorageDelete C) (trace (snd run)) = false.
Proof.
  intros run Hexit. subst run.
  destruct (run_shape g args w)
    as [(_ & e & Hout & _)
       |[(sm & inst & objs & w' & _ & _ & Hout & _)
        |(sm & inst & objs & w' & results & post & Hload & Hreal & Hlen & Ht & Hafter)]].
  - rewrite Hout in Hexit. discriminate.
  - rewrite Hout in Hexit. discriminate.
  - destruct (@real_trace_full g args sm inst (deletionOrder C objs) results post _
                Hlen Hafter) as (_ & _ & Hfail).
    rewrite <- Ht in Hfail.
    rewrite Hexit in Hafter. inversion Hafter as [Herr Hpost| | |]; subst.
    split; [reflexivity|]. split; [exact Hreal|]. split.
    + apply failed_delete_in. now rewrite Hfail.
    + rewrite Ht, app_nil_r, !existsb_app. simpl.
      apply existsb_false_of_Forall.
      eapply Forall_impl; [|apply loopEvents_quiet]. now intros ev (H & _).
Qed.

(** Where an event of a real run can sit. *)
Lemma real_trace_in (pre loop post : list (Event C)) (ev : Event C) :
  In ev (pre ++ loop ++ post) -> In ev pre \/ In ev loop \/ In ev post.
Proof.
  intros Hin. apply in_app_or in Hin. destruct Hin as [Hin|Hin]; [now left|].
  apply in_app_or in Hin. tauto.
Qed.



(** X4 (success means done).  A real run that returns [nil] has loaded the
    instance, called [sm.Delete] on every object of the deletion order with
    no failure, deleted the instance record with success, and has not seen
    a termination wait fail. *)
Theorem success_means_everything_deleted (g : Globals C)
    (args : list string) (w : World C) :
  dryrun (deleteArgs g) = false ->
  let run := runDeleteCmd g args (start C w) in
  fst run = Returned None ->
  exists sm inst objs w',
    loads g args w sm inst objs w' /\
    deleteCalls (trace (snd run)) = deletionOrder C objs /\
    existsb (@isFailedDelete C) (trace (snd run)) = false /\
    In (StorageDeleteCall (inst_Name C inst) (inst_Namespace C inst) None)
      (trace (snd run)) /\
    forall objs' opts e, ~ In (WaitCall objs' opts (Some e)) (trace (snd run)).
Proof.
  intros Hreal run Hnil. subst run.
  destruct (run_shape g args w)
    as [(_ & e & Hout & _)
       |[(sm & inst & objs & w' & _ & Hdry & _)
        |(sm & inst & objs & w' & results & post & Hload & _ & Hlen & Ht & Hafter)]].
  - rewrite Hout in Hnil. discriminate.
  - rewrite Hdry in Hreal. discriminate.
  - exists sm, inst, objs, w'. split; [exact Hload|].
    destruct (@real_trace_full g args sm inst (deletionOrder C objs) results post _
                Hlen Hafter) as (Hcalls & _ & Hfail).
    rewrite <- Ht in Hcalls, Hfail. rewrite Hnil in Hafter.
    assert (forall objs' opts e,
              ~ In (WaitCall objs' opts (Some e))
                  ((loadTrace g args sm inst ++
                    [LogInfo (Sprintf "deleting %v resource(s)..."
                                (List.length (deletionOrder C objs)))]) ++
                   loopEvents (scopedOptions g args) (deletionOrder C objs) results))
      as Hnowait.
    { intros objs' opts e Hin. apply in_app_or in Hin. destruct Hin as [Hin|Hin].
      - simpl in Hin. repeat (destruct Hin as [Hin|Hin]; [discriminate|]). exact Hin.
      - pose proof (loopEvents_quiet (scopedOptions g args) (deletionOrder C objs)
                      results) as Hq.
        rewrite Forall_forall in Hq. destruct (Hq _ Hin) as (_ & Hw & _).
        discriminate. }
    inversion Hafter as [| |Herr Hcond|r Herr Hwait Hne]; subst.
    + split; [exact Hcalls|]. split; [now rewrite Hfail|]. rewrite Ht. split.
      * rewrite app_assoc. apply in_or_app. right. now left.
      * intros objs' opts e Hin. rewrite app_assoc in Hin.
        apply in_app_or in Hin. destruct Hin as [Hin|[Hin|[]]];
          [now apply (Hnowait objs' opts e)|discriminate].
    + split; [exact Hcalls|]. split; [now rewrite Hfail|]. rewrite Ht. split.
      * rewrite app_assoc. apply in_or_app. right. now left.
      * intros objs' opts e Hin. rewrite app_assoc in Hin.
        apply in_app_or in Hin. destruct Hin as [Hin|Hin];
          [now apply (Hnowait objs' opts e)|].
        simpl in Hin. repeat (destruct Hin as [Hin|Hin]; [discriminate|]).
        exact Hin.
Qed.

(** X5 (what is waited for).  Whenever the command calls
    [sm.WaitForTermination], on any input, it is a real run with waiting
    enabled and no failed delete; the objects waited for are exactly those
    of the [Deleted] changes that the [sm.Delete] calls returned, in call
    order, and there is at least one; the options are the defaults with the
    timeout replaced by the root timeout; and the command returns what the
    wait returned. *)
Theorem wait_call_targets_deleted_objects (g : Globals C)
    (args : list string) (w : World C) (objs' : list (Obj C))
    (opts : WaitOptions) (r : option (error (ExtErr C))) :
  let run := runDeleteCmd g args (start C w) in
  In (WaitCall objs' opts r) (trace (snd run)) ->
  dryrun (deleteArgs g) = false /\
  wait (deleteArgs g) = true /\
  existsb (@isFailedDelete C) (trace (snd run)) = false /\
  objs' = SelectObjectsFromSet (deleteChanges (trace (snd run))) DeletedAction /\
  objs' <> [] /\
  opts = {| Interval := Interval (DefaultWaitOptions C);
            Timeout := rootTimeout g;
            FailFast := FailFast (DefaultWaitOptions C) |} /\
  fst run = Returned r.
Proof.
  intros run Hin. subst run.
  destruct (run_shape g args w)
    as [(_ & e & _ & Hpre & _)
       |[(sm & inst & objs & w' & _ & _ & _ & Ht)
        |(sm & inst & objs & w' & results & post & Hload & Hreal & Hlen & Ht & Hafter)]].
  - apply prelude_no_delete in Hpre. rewrite Forall_forall in Hpre.
    destruct (Hpre _ Hin) as (_ & _ & Hw & _). discriminate.
  - rewrite Ht in Hin. apply in_app_or in Hin. destruct Hin as [Hin|Hin].
    + simpl in Hin. destruct Hin as [Hin|[Hin|[]]]; discriminate.
    + apply in_map_iff in Hin. destruct Hin as (x & Hx & _). discriminate.
  - destruct (@real_trace_full g args sm inst (deletionOrder C objs) results post _
                Hlen Hafter) as (_ & Hchanges & Hfail).
    rewrite <- Ht in Hchanges, Hfail. rewrite Hchanges, Hfail.
    rewrite Ht in Hin. apply real_trace_in in Hin.
    destruct Hin as [Hin|[Hin|Hin]].
    + exfalso. apply in_app_or in Hin. simpl in Hin.
      destruct Hin as [[Hin|[Hin|[]]]|[Hin|[]]]; discriminate.
    + exfalso.
      pose proof (loopEvents_quiet (scopedOptions g args) (deletionOrder C objs)
                    results) as Hq.
      rewrite Forall_forall in Hq. destruct (Hq _ Hin) as (_ & Hw & _).
      discriminate.
    + inversion Hafter as [Herr Hp Ho|e Herr Hp Ho|Herr Hcond Hp Ho
                          |r' Herr Hwait Hne Hp Ho]; subst post.
      * destruct Hin.
      * destruct Hin as [Hin|[]]. discriminate.
      * destruct Hin as [Hin|[]]. discriminate.
      * assert (WaitCall (SelectObjectsFromSet (oks results) DeletedAction)
                  (waitOptions g) r' = WaitCall objs' opts r) as Heq.
        { simpl in Hin. destruct Hin as [Hin|[Hin|[Hin|[Hin|Hin]]]];
            try discriminate; [exact Hin|].
          destruct r'; simpl in Hin; [destruct Hin|].
          destruct Hin as [Hin|[]]. discriminate. }
        injection Heq as <- <- <-.
        repeat split; auto.
Qed.


(** X7 (deletion order, whatever the listing).  For any listing of the
    instance's objects, sorted or not, a real run calls [sm.Delete] once per
    listed object and never on an object before one that sorts after it:
    no call's object is less than the object of a later call. *)
Theorem delete_calls_never_ascend (g : Globals C) (args : list string)
    (w : World C) (sm : ResourceManager C) (inst : Instance C)
    (objs : list (Obj C)) (w' : World C) :
  StrictWeakOrder (Less C) ->
  sort_contract (sort_Sort C) ->
  loads g args w sm inst objs w' ->
  dryrun (deleteArgs g) = false ->
  let calls := deleteCalls (trace (snd (runDeleteCmd g args (start C w)))) in
  Permutation objs calls /\
  StronglySorted (fun x y => Less C x y = false) calls.
Proof.
  intros Hswo Hsort Hload Hreal calls. subst calls.
  destruct (@real_run_read C g args w sm inst objs w' Hload Hreal) as (Hcalls & _).
  rewrite Hcalls. unfold deletionOrder.
  destruct (Hsort (sort_Reverse (Less C)) objs (reverse_swo Hswo)) as [Hp Hs].
  split; [exact Hp|exact Hs].
Qed.

Lemma dryRunReported_lines (l : list (Obj C)) :
  dryRunReported (map (@dryRunLine C) l) = l.
Proof. induction l as [|o l IH]; simpl; [reflexivity|now rewrite IH]. Qed.

(** X8 (dry-run fidelity).  On the same arguments and world, the objects a
    dry run reports as deleted are the objects a real run calls [sm.Delete]
    on, in the same order. *)
Theorem dry_run_reports_what_real_run_deletes (gd gr : Globals C)
    (args : list string) (w : World C) (sm : ResourceManager C)
    (inst : Instance C) (objs : list (Obj C)) (w' : World C) :
  kubeconfigArgs gd = kubeconfigArgs gr ->
  dryrun (deleteArgs gd) = true ->
  dryrun (deleteArgs gr) = false ->
  loads gd args w sm inst objs w' ->
  dryRunReported (trace (snd (runDeleteCmd gd args (start C w)))) =
  deleteCalls (trace (snd (runDeleteCmd gr args (start C w)))).
Proof.
  intros Hkube Hdry Hreal Hload.
  assert (loads gr args w sm inst objs w') as Hload'
    by (unfold loads in *; now rewrite <- Hkube).
  destruct (@real_run_read C gr args w sm inst objs w' Hload' Hreal) as (Hcalls & _).
  rewrite Hcalls.
  rewrite (@dry_run_loaded gd args w sm inst objs w' Hload Hdry). simpl.
  apply dryRunReported_lines.
Qed.

(** X9 (what is logged for a delete).  On any input every failed
    [sm.Delete] call is logged at error level with its error and the
    message [deletion failed], every successful one is logged at info level
    with the change it returned, and the command logs at error level for
    nothing else. *)
Theorem delete_outcomes_are_logged (g : Globals C)
    (args : list string) (w : World C) :
  let t := trace (snd (runDeleteCmd g args (start C w))) in
  (forall o opts e,
     In (DeleteCall o opts (Err e)) t ->
     In (LogError (Some e) (Text "deletion failed")) t) /\
  (forall o opts c,
     In (DeleteCall o opts (Ok c)) t ->
     In (LogInfo (ColorizeJoin [VChange c])) t) /\
  (forall oe m,
     In (LogError oe m) t ->
     m = Text "deletion failed" /\
     exists o opts e, oe = Some e /\ In (DeleteCall o opts (Err e)) t).
Proof.
  intros t. subst t.
  destruct (run_shape g args w)
    as [(_ & e & _ & Hpre & _)
       |[(sm & inst & objs & w' & _ & _ & _ & Ht)
        |(sm & inst & objs & w' & results & post & Hload & Hreal & Hlen & Ht & Hafter)]].
  - apply prelude_no_delete in Hpre. rewrite Forall_forall in Hpre.
    split; [|split].
    + intros o opts e' Hin. destruct (Hpre _ Hin) as (Hd & _). discriminate.
    + intros o opts c Hin. destruct (Hpre _ Hin) as (Hd & _). discriminate.
    + intros oe m Hin. destruct (Hpre _ Hin) as (_ & _ & _ & Hl). discriminate.
  - rewrite Ht.
    assert (forall ev, In ev (loadTrace g args sm inst ++
                              map (@dryRunLine C) (deletionOrder C objs)) ->
                       isDeleteCall ev = false /\
                       forall oe m, ev <> LogError oe m) as Hq.
    { intros ev Hin. apply in_app_or in Hin. destruct Hin as [Hin|Hin].
      - simpl in Hin. destruct Hin as [<-|[<-|[]]]; split; try reflexivity;
          discriminate.
      - apply in_map_iff in Hin. destruct Hin as (x & <- & _).
        split; [reflexivity|discriminate]. }
    split; [|split].
    + intros o opts e Hin. destruct (Hq _ Hin) as (Hd & _). discriminate.
    + intros o opts c Hin. destruct (Hq _ Hin) as (Hd & _). discriminate.
    + intros oe m Hin. destruct (Hq _ Hin) as (_ & Hne). now destruct (Hne oe m).
  - rewrite Ht.
    set (pre := loadTrace g args sm inst ++
                [LogInfo (Sprintf "deleting %v resource(s)..."
                            (List.length (deletionOrder C objs)))]).
    set (loop := loopEvents (scopedOptions g args) (deletionOrder C objs) results).
    assert (forall ev, In ev pre ->
              isDeleteCall ev = false /\ forall oe m, ev <> LogError oe m) as Hpre.
    { intros ev Hin. subst pre. simpl in Hin.
      destruct Hin as [<-|[<-|[<-|[]]]]; split; try reflexivity; discriminate. }
    assert (forall ev, In ev post ->
              isDeleteCall ev = false /\ forall oe m, ev <> LogError oe m) as Hpost.
    { intros ev Hin.
      inversion Hafter as [Herr Hp Ho|e Herr Hp Ho|Herr Hcond Hp Ho
                          |r' Herr Hwait Hne Hp Ho]; subst post.
      - destruct Hin.
      - destruct Hin as [<-|[]]. split; [reflexivity|discriminate].
      - destruct Hin as [<-|[]]. split; [reflexivity|discriminate].
      - destruct r'; simpl in Hin;
          repeat (destruct Hin as [<-|Hin];
                  [split; [reflexivity|discriminate]|]);
          destruct Hin. }
    assert (forall o opts r, In (DeleteCall o opts r) (pre ++ loop ++ post) ->
              In (DeleteCall o opts r) loop) as Hcall.
    { intros o opts r Hin. apply real_trace_in in Hin.
      destruct Hin as [Hin|[Hin|Hin]]; [|exact Hin|].
      - destruct (Hpre _ Hin) as (Hd & _). discriminate.
      - destruct (Hpost _ Hin) as (Hd & _). discriminate. }
    split; [|split].
    + intros o opts e Hin. apply Hcall in Hin.
      apply loopEvents_logged in Hin. destruct Hin as (_ & Hall).
      apply in_or_app. right. apply in_or_app. left.
      apply Hall. simpl. tauto.
    + intros o opts c Hin. apply Hcall in Hin.
      apply loopEvents_logged in Hin. destruct Hin as (_ & Hall).
      apply in_or_app. right. apply in_or_app. left.
      apply Hall. simpl. tauto.
    + intros oe m Hin. apply real_trace_in in Hin.
      destruct Hin as [Hin|[Hin|Hin]].
      * destruct (Hpre _ Hin) as (_ & Hne). now destruct (Hne oe m).
      * apply loopEvents_in in Hin.
        destruct Hin as (o & r & Hc & [Heq|[Heq|[]]]); [discriminate|].
        destruct r as [c|e]; [discriminate|].
        injection Heq as <- <-. split; [reflexivity|].
        exists o, (scopedOptions g args), e. split; [reflexivity|].
        apply in_or_app. right. apply in_or_app. now left.
      * destruct (Hpost _ Hin) as (_ & Hne). now destruct (Hne oe m).
Qed.

End Whole.


Lemma failed_load_returns_error_untouched_witness :
  let run := runDeleteCmd (Sample.strict_globals false true) ["missing"]
               (start Sample.strict_cluster Sample.healthy) in
  exists e,
    fst run = Returned (Some e) /\
    e = External "instance not found" /\
    trace (snd run) =
      [@NewResourceManagerCall Sample.strict_cluster (Ok tt);
       @StorageGetCall Sample.strict_cluster "missing" "default"
         (Err (External "instance not found"))].
Proof.
  destruct (@failed_load_returns_error_untouched Sample.strict_cluster
              (Sample.strict_globals false true) ["missing"] Sample.healthy)
    as (e & Hout & _ & _ & Hstep).
  - intros sm inst objs w' (w1 & _ & Hget & _). discriminate.
  - exists e. split; [exact Hout|].
    destruct Hstep as [(Hnil & _)
                      |[(arg0 & rest & w1 & _ & Hrm & _)
                       |[(arg0 & rest & sm & w1 & w2 & Hargs & _ & Hget & Hrun)
                        |(arg0 & rest & sm & inst & w1 & w2 & Hargs & _ & Hget & _)]]].
    + discriminate.
    + discriminate.
    + injection Hargs as <- <-. simpl in Hget.
      injection Hget as <- _. split; [reflexivity|].
      rewrite Hrun. destruct sm. reflexivity.
    + injection Hargs as <- <-. discriminate.
Defined.

Lemma delete_calls_use_instance_options_witness :
  exists arg0 rest,
    ["app"; "ignored"] = arg0 :: rest /\
    ("app", "default") =
    DeleteOptions Sample.cluster arg0
      (Namespace Sample.cluster (kubeconfigArgs (Sample.globals false true))).
Proof.
  apply (@delete_calls_use_instance_options Sample.cluster
           (Sample.globals false true) ["app"; "ignored"] Sample.guarded
           2 ("app", "default") (Err (External "forbidden"))).
  vm_compute. tauto.
Defined.

Lemma exit_only_after_failed_delete_witness :
  let run := runDeleteCmd (Sample.globals false true) ["app"]
               (start Sample.cluster Sample.guarded) in
  (exists o opts e, In (DeleteCall o opts (Err e)) (trace (snd run))) /\
  existsb (@isStorageDelete Sample.cluster) (trace (snd run)) = false.
Proof.
  destruct (@exit_only_after_failed_delete Sample.cluster
              (Sample.globals false true) ["app"] Sample.guarded 1 eq_refl)
    as (_ & _ & Hfailed & Hrecord).
  split; assumption.
Defined.

Lemma success_means_everything_deleted_witness :
  let run := runDeleteCmd (Sample.globals false true) ["app"]
               (start Sample.cluster Sample.healthy) in
  exists sm inst objs w',
    loads (Sample.globals false true) ["app"] Sample.healthy sm inst objs w' /\
    deleteCalls (trace (snd run)) = deletionOrder Sample.cluster objs /\
    existsb (@isFailedDelete Sample.cluster) (trace (snd run)) = false /\
    In (StorageDeleteCall (inst_Name Sample.cluster inst)
          (inst_Namespace Sample.cluster inst) None) (trace (snd run)) /\
    forall objs' opts e, ~ In (WaitCall objs' opts (Some e)) (trace (snd run)).
Proof.
  exact (@success_means_everything_deleted Sample.cluster
           (Sample.globals false true) ["app"] Sample.healthy eq_refl eq_refl).
Defined.

Lemma wait_call_targets_deleted_objects_witness :
  let run := runDeleteCmd (Sample.globals false true) ["app"]
               (start Sample.cluster Sample.healthy) in
  [3; 2; 1] = SelectObjectsFromSet (deleteChanges (trace (snd run))) DeletedAction /\
  fst run = Returned None.
Proof.
  destruct (@wait_call_targets_deleted_objects Sample.cluster
              (Sample.globals false true) ["app"] Sample.healthy [3; 2; 1]
              {| Interval := 2; Timeout := 300; FailFast := false |} None)
    as (_ & _ & _ & Hobjs & _ & _ & Hout).
  - vm_compute. tauto.
  - split; assumption.
Defined.

Lemma delete_calls_never_ascend_witness :
  let calls := deleteCalls
                 (trace (snd (runDeleteCmd (Sample.globals false true) ["app"]
                                (start Sample.cluster Sample.shuffled)))) in
  Permutation [2; 3; 1] calls /\
  StronglySorted (fun x y => Nat.ltb x y = false) calls.
Proof.
  exact (@delete_calls_never_ascend Sample.cluster (Sample.globals false true)
           ["app"] Sample.shuffled tt [2; 3; 1] [2; 3; 1] Sample.shuffled
           ltb_swo isort_contract
           (sample_loads false true Sample.shuffled) eq_refl).
Defined.

Lemma dry_run_reports_what_real_run_deletes_witness :
  dryRunReported
    (trace (snd (runDeleteCmd (Sample.globals true true) ["app"]
                   (start Sample.cluster Sample.shuffled)))) =
  deleteCalls
    (trace (snd (runDeleteCmd (Sample.globals false true) ["app"]
                   (start Sample.cluster Sample.shuffled)))).
Proof.
  exact (@dry_run_reports_what_real_run_deletes Sample.cluster
           (Sample.globals true true) (Sample.globals false true)
           ["app"] Sample.shuffled tt [2; 3; 1] [2; 3; 1] Sample.shuffled
           eq_refl eq_refl eq_refl (sample_loads true true Sample.shuffled)).
Defined.

End DeleteProps.

(** ** The dry-run diff report *)
Module DyffProps.
Import Dyff.

Section Report.
Variable E : Env.

Lemma diffCalls_app (a b : list (Event E)) :
  diffCalls (a ++ b) = diffCalls a ++ diffCalls b.
Proof. apply flat_map_app. Qed.

Lemma diffCalls_created (l : list (Obj E)) : diffCalls (map (@createdLine E) l) = [].
Proof. induction l; simpl; auto. Qed.

Lemma diffCalls_stale (l : list (Obj E)) : diffCalls (map (@staleLine E) l) = [].
Proof. induction l; simpl; auto. Qed.

(** The stale loop logs one line per object and does nothing else. *)
Lemma staleLoop_run (staleObjects : list (Obj E)) :
  forall s,
    staleLoop staleObjects s =
    (inl tt, {| world := world s;
                trace := trace s ++ map (@staleLine E) staleObjects |}).
Proof.
  induction staleObjects as [|r rest IH]; intros s; simpl.
  - unfold Run.ret. rewrite app_nil_r. now destruct s.
  - unfold Run.bind, emit. rewrite IH. simpl. now rewrite <- app_assoc.
Qed.

(** A failed [rm.Diff] call costs one log line. *)
Lemma diffFailed_run (r : Obj E) (e : error (ExtErr E)) (s : State E) :
  diffFailed r e s =
  (inl tt, {| world := world s; trace := trace s ++ [failureLine r e] |}).
Proof.
  unfold diffFailed, failureLine, hasForceMarker.
  destruct (IsImmutableError E e); [destruct (AnyInMetadata E r _)|]; reflexivity.
Qed.

(** [Print] and [DiffYAML] extend the trace without calling [rm.Diff]. *)
Lemma printLoop_run (p : DyffPrinter) (w : Writer E) (args : list (PrintArg E)) :
  forall s, exists r evs w',
    printLoop p w args s = (r, {| world := w'; trace := trace s ++ evs |}) /\
    diffCalls evs = [].
Proof.
  induction args as [|[rep|t] rest IH]; intros s; simpl.
  - exists (inl tt), [], (world s). unfold Run.ret. rewrite app_nil_r.
    now destruct s.
  - unfold Run.bind, call.
    destruct (WriteReport E rep (OmitHeader p) w (world s)) as [[e|] w1].
    + eexists _, [_], w1. split; reflexivity.
    + destruct (IH {| world := w1;
                      trace := trace s ++
                        [WriteReportCall rep (OmitHeader p) w None] |})
        as (r & evs & w' & Heq & Hd).
      exists r, (WriteReportCall rep (OmitHeader p) w None :: evs), w'.
      rewrite Heq. simpl. rewrite <- app_assoc. split; [reflexivity|exact Hd].
  - eexists _, [], (world s). unfold Run.stop. rewrite app_nil_r.
    split; [|reflexivity]. now destruct s.
Qed.

Lemma DiffYAML_run (liveFile mergedFile : string) (output : Writer E) (s : State E) :
  exists r evs w',
    DiffYAML liveFile mergedFile output s =
    (r, {| world := w'; trace := trace s ++ evs |}) /\
    diffCalls evs = [].
Proof.
  unfold DiffYAML, Run.exec, Run.bind, call, invoke, Print, Run.exec.
  destruct (LoadFiles E liveFile mergedFile (world s)) as [[[from to]|e] w1].
  - destruct (CompareInputFiles E from to) as [report|e].
    + destruct (printLoop_run NewDyffPrinter output [ArgReport report]
                  {| world := w1;
                     trace := trace s ++
                       [LoadFilesCall liveFile mergedFile (Ok (from, to))] |})
        as (r & evs & w' & Heq & Hd).
      rewrite Heq. simpl. rewrite <- app_assoc. simpl.
      destruct r as [[]|o];
        eexists _, (LoadFilesCall liveFile mergedFile (Ok (from, to)) :: evs), w';
        (split; [reflexivity|exact Hd]).
    + eexists _, [_], w1. split; reflexivity.
  - eexists _, [_], w1. split; reflexivity.
Qed.

(** The detailed diff ends normally or with an error, never with [nil]
    returned early. *)
Lemma detailStep_run (tmpDir : string) (w : Writer E)
    (liveObject mergedObject : option (Obj E)) (s : State E) :
  exists r evs w',
    detailStep tmpDir w liveObject mergedObject s =
      (r, {| world := w'; trace := trace s ++ evs |}) /\
    diffCalls evs = [] /\
    (r = inl tt \/ exists err, r = inr (Some err)).
Proof.
  unfold detailStep.
  set (liveFile := filepath_Join E tmpDir "live.yaml").
  set (mergedFile := filepath_Join E tmpDir "merged.yaml").
  unfold Run.bind, call, invoke.
  destruct (os_WriteFile E liveFile (yaml_Marshal E liveObject) 420 (world s))
    as [[e|] w1]; simpl.
  { exists (inr (Some e)),
      [WriteFileCall liveFile (yaml_Marshal E liveObject) 420 (Some e)], w1.
    repeat split; eauto. }
  destruct (os_WriteFile E mergedFile (yaml_Marshal E mergedObject) 420 w1)
    as [[e|] w2]; simpl.
  { exists (inr (Some e)),
      [WriteFileCall liveFile (yaml_Marshal E liveObject) 420 None;
       WriteFileCall mergedFile (yaml_Marshal E mergedObject) 420 (Some e)], w2.
    rewrite <- ?app_assoc. repeat split; eauto. }
  destruct (DiffYAML_run liveFile mergedFile w
              {| world := w2;
                 trace := (trace s ++
                   [WriteFileCall liveFile (yaml_Marshal E liveObject) 420 None]) ++
                   [WriteFileCall mergedFile (yaml_Marshal E mergedObject) 420 None] |})
    as (r & evs & w' & Heq & Hd).
  rewrite Heq. simpl. rewrite <- !app_assoc. simpl.
  destruct r as [e|];
    eexists _,
      (WriteFileCall liveFile (yaml_Marshal E liveObject) 420 None ::
       WriteFileCall mergedFile (yaml_Marshal E mergedObject) 420 None :: evs), w';
    (split; [reflexivity|split; [exact Hd|eauto]]).
Qed.

(** One turn of the loop on an object whose [rm.Diff] call fails: the
    failure is logged and the loop goes on with the rest. *)
Lemma diff_error_step (rm : ResourceManager E) (diffOpts : DiffOptionsT E)
    (tmpDir : string) (withDiff : bool) (w : Writer E)
    (r : Obj E) (rest : list (Obj E)) (s : State E)
    (e : error (ExtErr E)) (w1 : World E) :
  Diff E rm r diffOpts (world s) = (Err e, w1) ->
  desiredLoop rm diffOpts true tmpDir withDiff w (r :: rest) s =
  desiredLoop rm diffOpts true tmpDir withDiff w rest
    {| world := w1;
       trace := trace s ++ [DiffCall r (Err e); failureLine r e] |}.
Proof.
  intros Hdiff. simpl. unfold Run.bind, call. rewrite Hdiff.
  rewrite diffFailed_run. simpl. now rewrite <- app_assoc.
Qed.

(** Without the namespace the loop logs one [created] line per object. *)
Lemma desiredLoop_no_namespace (rm : ResourceManager E) (diffOpts : DiffOptionsT E)
    (tmpDir : string) (withDiff : bool) (w : Writer E) (objects : list (Obj E)) :
  forall s,
    desiredLoop rm diffOpts false tmpDir withDiff w objects s =
    (inl tt, {| world := world s;
                trace := trace s ++ map (@createdLine E) objects |}).
Proof.
  induction objects as [|r rest IH]; intros s; simpl.
  - unfold Run.ret. rewrite app_nil_r. now destruct s.
  - unfold Run.bind, emit. rewrite IH. simpl. now rewrite <- app_assoc.
Qed.

Lemma no_diff_call_in (l : list (Event E)) (o : Obj E)
    (r : result (ExtErr E) (ChangeSetEntry (Obj E) * option (Obj E) * option (Obj E))) :
  diffCalls l = [] -> ~ In (DiffCall o r) l.
Proof.
  induction l as [|ev l IH]; intros Hd Hin; [exact Hin|].
  destruct Hin as [->|Hin]; [discriminate|].
  apply IH; [|exact Hin]. simpl in Hd. now apply app_eq_nil in Hd.
Qed.

(** The loop over the desired objects logs every failure of [rm.Diff]; it
    either reaches the end, having called [rm.Diff] on every object, or
    stops on an error of the detailed diff of a configured object. *)
Lemma desiredLoop_run (rm : ResourceManager E) (diffOpts : DiffOptionsT E)
    (tmpDir : string) (withDiff : bool) (w : Writer E) (objects : list (Obj E)) :
  forall s, exists r evs w',
    desiredLoop rm diffOpts true tmpDir withDiff w objects s =
      (r, {| world := w'; trace := trace s ++ evs |}) /\
    (forall o e, In (DiffCall o (Err e)) evs -> In (failureLine o e) evs) /\
    ((r = inl tt /\ diffCalls evs = objects) \/
     (exists err c,
        r = inr (Some err) /\ withDiff = true /\
        EntryAction c = ConfiguredAction /\
        In (LogInfo (ColorizeJoin [VChange c; VLabel DryRunServer])) evs)).
Proof.
  induction objects as [|o rest IH]; intros s.
  - exists (inl tt), [], (world s). simpl. unfold Run.ret. rewrite app_nil_r.
    split; [now destruct s|]. split; [intros o e []|left; auto].
  - destruct (Diff E rm o diffOpts (world s)) as [[[[c live] merged]|e] w1] eqn:Hdiff.
    + simpl. unfold Run.bind at 1. unfold call at 1. rewrite Hdiff.
      unfold Run.bind at 1. unfold emit at 1. simpl world. simpl trace.
      set (line := LogInfo (ColorizeJoin [VChange c; VLabel DryRunServer])).
      set (s1 := {| world := w1;
                    trace := (trace s ++ [DiffCall o (Ok (c, live, merged))]) ++
                             [line] |}).
      assert (forall q evs1 w2,
                diffCalls evs1 = [] ->
                (q = inl tt \/
                 exists err, q = inr (Some err) /\ withDiff = true /\
                             EntryAction c = ConfiguredAction) ->
                exists r evs w',
                  match q with
                  | inl _ =>
                      desiredLoop rm diffOpts true tmpDir withDiff w rest
                        {| world := w2; trace := trace s1 ++ evs1 |}
                  | inr out => (inr out, {| world := w2; trace := trace s1 ++ evs1 |})
                  end = (r, {| world := w'; trace := trace s ++ evs |}) /\
                  (forall o' e',
                     In (DiffCall o' (Err e')) evs -> In (failureLine o' e') evs) /\
                  ((r = inl tt /\ diffCalls evs = o :: rest) \/
                   (exists err c',
                      r = inr (Some err) /\ withDiff = true /\
                      EntryAction c' = ConfiguredAction /\
                      In (LogInfo (ColorizeJoin [VChange c'; VLabel DryRunServer]))
                        evs))) as Hnext.
      { intros q evs1 w2 Hd [->|(err & -> & Hwd & Hact)].
        - destruct (IH {| world := w2; trace := trace s1 ++ evs1 |})
            as (r & evs & w' & Hrest & Hlog & Hr).
          rewrite Hrest. simpl trace.
          exists r, (DiffCall o (Ok (c, live, merged)) :: line :: evs1 ++ evs), w'.
          split; [now rewrite <- !app_assoc|]. split.
          { intros o' e' [Hx|[Hx|Hx]]; [discriminate|discriminate|].
            apply in_app_or in Hx. destruct Hx as [Hx|Hx].
            - exfalso. eapply no_diff_call_in; [exact Hd|exact Hx].
            - right. right. apply in_or_app. right. now apply Hlog. }
          destruct Hr as [(-> & Hcalls)|(err & c' & -> & Hwd & Hact & Hin)].
          + left. split; [reflexivity|]. simpl.
            now rewrite diffCalls_app, Hd, Hcalls.
          + right. exists err, c'. repeat split; auto.
            right. right. apply in_or_app. now right.
        - exists (inr (Some err)),
            (DiffCall o (Ok (c, live, merged)) :: line :: evs1), w2.
          simpl trace. split; [now rewrite <- !app_assoc|]. split.
          { intros o' e' [Hx|[Hx|Hx]]; [discriminate|discriminate|].
            exfalso. eapply no_diff_call_in; [exact Hd|exact Hx]. }
          right. exists err, c. repeat split; auto. right. now left. }
      unfold Run.bind at 1.
      destruct (withDiff && Action_eqb (EntryAction c) ConfiguredAction) eqn:Hcond.
      * apply andb_true_iff in Hcond. destruct Hcond as [Hwd Hact].
        destruct (detailStep_run tmpDir w live merged s1)
          as (q & evs1 & w2 & Heq & Hd & Hq).
        rewrite Heq. apply Hnext; [exact Hd|].
        destruct Hq as [->|(err & ->)]; [now left|right].
        exists err. repeat split; auto.
        destruct (EntryAction c); try discriminate; reflexivity.
      * unfold Run.ret.
        replace s1 with {| world := w1; trace := trace s1 ++ [] |}
          by (now rewrite app_nil_r).
        apply (Hnext (inl tt) [] w1); auto.
    + rewrite diff_error_step with (1 := Hdiff).
      destruct (IH {| world := w1;
                      trace := trace s ++ [DiffCall o (Err e); failureLine o e] |})
        as (r & evs & w' & Hrest & Hlog & Hr).
      rewrite Hrest. simpl trace.
      exists r, (DiffCall o (Err e) :: failureLine o e :: evs), w'.
      split; [now rewrite <- app_assoc|]. split.
      { intros o' e' [Hx|[Hx|Hx]].
        - injection Hx as <- <-. right. now left.
        - exfalso. unfold failureLine, createdLine, immutableLine in Hx.
          destruct (IsImmutableError E e); [destruct (hasForceMarker o)|];
            discriminate.
        - right. right. now apply Hlog. }
      destruct Hr as [(-> & Hcalls)|(err & c' & -> & Hwd & Hact & Hin)].
      * left. split; [reflexivity|].
        simpl. rewrite Hcalls.
        unfold failureLine. destruct (IsImmutableError E e);
          [destruct (hasForceMarker o)|]; reflexivity.
      * right. exists err, c'. repeat split; auto. right. now right.
Qed.

(** Every failure of [rm.Diff] in a report is followed by its log line,
    whether the report reaches its end or not. *)
Lemma report_logs_failures (rm : ResourceManager E)
    (objects staleObjects : list (Obj E)) (tmpDir : string) (withDiff : bool)
    (w : Writer E) (w0 : World E) (o : Obj E) (e : error (ExtErr E)) :
  let run := InstanceDryRunDiff rm objects staleObjects true tmpDir withDiff w
               (start E w0) in
  In (DiffCall o (Err e)) (trace (snd run)) ->
  In (failureLine o e) (trace (snd run)).
Proof.
  intros run. subst run. unfold InstanceDryRunDiff, Run.exec, Run.bind.
  destruct (desiredLoop_run rm (DefaultDiffOptions E) tmpDir withDiff w
              (sort_Sort E (Less E) objects) (start E w0))
    as (r & evs & w' & Heq & Hlog & Hr).
  rewrite Heq.
  destruct Hr as [(-> & _)|(err & c & -> & _)].
  - rewrite staleLoop_run. simpl. intros Hin. apply in_app_or in Hin.
    apply in_or_app. destruct Hin as [Hin|Hin]; [left; now apply Hlog|].
    apply in_map_iff in Hin. destruct Hin as (x & Hx & _). discriminate.
  - simpl. apply Hlog.
Qed.

(** C5 (immutable-conflict classification).  When [rm.Diff] fails on [r]
    with an immutable-field error, the loop logs [r] as [created] at info
    level if [r] carries the force marker, and as [immutable] at error level
    if it does not; in both cases it goes on with the remaining objects.  So
    every such failure of a report is in its trace with that line. *)
Theorem immutable_conflict_classified (rm : ResourceManager E)
    (tmpDir : string) (withDiff : bool) (w : Writer E) :
  (forall diffOpts r rest s e w1,
     Diff E rm r diffOpts (world s) = (Err e, w1) ->
     IsImmutableError E e = true ->
     desiredLoop rm diffOpts true tmpDir withDiff w (r :: rest) s =
     desiredLoop rm diffOpts true tmpDir withDiff w rest
       {| world := w1;
          trace := trace s ++
                   [DiffCall r (Err e);
                    if hasForceMarker r
                    then LogInfo (ColorizeJoin
                           [VObject r; VAction CreatedAction; VLabel DryRunServer])
                    else LogError None (ColorizeJoin
                           [VObject r; VString "immutable"; VLabel DryRunServer])] |}) /\
  (forall objects staleObjects w0 r e,
     let run := InstanceDryRunDiff rm objects staleObjects true tmpDir withDiff w
                  (start E w0) in
     In (DiffCall r (Err e)) (trace (snd run)) ->
     IsImmutableError E e = true ->
     In (if hasForceMarker r
         then LogInfo (ColorizeJoin
                [VObject r; VAction CreatedAction; VLabel DryRunServer])
         else LogError None (ColorizeJoin
                [VObject r; VString "immutable"; VLabel DryRunServer]))
        (trace (snd run))).
Proof.
  split.
  - intros diffOpts r rest s e w1 Hdiff Himm.
    rewrite diff_error_step with (1 := Hdiff).
    unfold failureLine. rewrite Himm. reflexivity.
  - intros objects staleObjects w0 r e run Hin Himm.
    pose proof (@report_logs_failures rm objects staleObjects tmpDir withDiff
                  w w0 r e Hin) as Hlog.
    unfold failureLine in Hlog. rewrite Himm in Hlog. exact Hlog.
Qed.

(** C7 (missing namespace).  [nsExists] is an argument of the report, read
    as it is for every object.  When it is [false] the report calls no
    collaborator: it logs every desired object as [created], in sorted
    order, then every stale object, and returns [nil]. *)
Theorem missing_namespace_reports_created (rm : ResourceManager E)
    (objects staleObjects : list (Obj E)) (tmpDir : string) (withDiff : bool)
    (w : Writer E) (w0 : World E) :
  let run := InstanceDryRunDiff rm objects staleObjects false tmpDir withDiff w
               (start E w0) in
  run = (None,
         {| world := w0;
            trace := map (@createdLine E) (sort_Sort E (Less E) objects) ++
                     map (@staleLine E) staleObjects |}) /\
  diffCalls (trace (snd run)) = [] /\
  (StrictWeakOrder (Less E) -> sort_contract (sort_Sort E) ->
   forall r, In r objects -> In (createdLine r) (trace (snd run))).
Proof.
  intros run.
  assert (run = (None,
                 {| world := w0;
                    trace := map (@createdLine E) (sort_Sort E (Less E) objects) ++
                             map (@staleLine E) staleObjects |})) as Hrun.
  { subst run. unfold InstanceDryRunDiff, Run.exec, Run.bind.
    rewrite desiredLoop_no_namespace, staleLoop_run. reflexivity. }
  rewrite Hrun. simpl. repeat split.
  - now rewrite diffCalls_app, diffCalls_created, diffCalls_stale.
  - intros Hswo Hsort r Hin. apply in_or_app. left. apply in_map.
    destruct (Hsort (Less E) objects Hswo) as [Hperm _].
    eapply Permutation_in; eassumption.
Qed.

(** Errors of [rm.Diff] are logged and do not stop the report; a report
    that returns [nil] has gone through every desired and stale object;
    without detailed diffs the report returns [nil]; a report that returns
    an error had logged a configured change. *)
Lemma diff_errors_logged_and_complete (rm : ResourceManager E)
    (tmpDir : string) (withDiff : bool) (w : Writer E) :
  (forall r rest s e w1,
     Diff E rm r (DefaultDiffOptions E) (world s) = (Err e, w1) ->
     desiredLoop rm (DefaultDiffOptions E) true tmpDir withDiff w (r :: rest) s =
     desiredLoop rm (DefaultDiffOptions E) true tmpDir withDiff w rest
       {| world := w1;
          trace := trace s ++ [DiffCall r (Err e); failureLine r e] |}) /\
  (forall objects staleObjects nsExists w0,
     let run := InstanceDryRunDiff rm objects staleObjects nsExists tmpDir
                  withDiff w (start E w0) in
     (forall r e,
        In (DiffCall r (Err e)) (trace (snd run)) ->
        In (failureLine r e) (trace (snd run))) /\
     (fst run = None ->
      exists evs,
        trace (snd run) = evs ++ map (@staleLine E) staleObjects /\
        if nsExists
        then diffCalls evs = sort_Sort E (Less E) objects
        else evs = map (@createdLine E) (sort_Sort E (Less E) objects)) /\
     (withDiff = false -> fst run = None) /\
     (forall err, fst run = Some err ->
        withDiff = true /\ nsExists = true /\
        exists c,
          EntryAction c = ConfiguredAction /\
          In (LogInfo (ColorizeJoin [VChange c; VLabel DryRunServer]))
            (trace (snd run)))).
Proof.
  split.
  - intros r rest s e w1 Hdiff. now apply diff_error_step.
  - intros objects staleObjects nsExists w0 run. split.
    { destruct nsExists.
      - intros r e. apply report_logs_failures.
      - subst run. intros r e Hin. exfalso. revert Hin.
        unfold InstanceDryRunDiff, Run.exec, Run.bind.
        rewrite desiredLoop_no_namespace, staleLoop_run. simpl.
        apply no_diff_call_in.
        now rewrite diffCalls_app, diffCalls_created, diffCalls_stale. }
    subst run. unfold InstanceDryRunDiff, Run.exec, Run.bind.
    destruct nsExists.
    + destruct (desiredLoop_run rm (DefaultDiffOptions E) tmpDir withDiff w
                  (sort_Sort E (Less E) objects) (start E w0))
        as (r & evs & w' & Heq & _ & Hr).
      rewrite Heq.
      destruct Hr as [(-> & Hcalls)|(err & c & -> & Hwd & Hact & Hin)].
      * rewrite staleLoop_run. simpl. repeat split; try discriminate.
        intros _. exists evs. split; [reflexivity|exact Hcalls].
      * simpl. repeat split; try discriminate.
        -- intros Hno. rewrite Hno in Hwd. discriminate.
        -- exact Hwd.
        -- exists c. split; [exact Hact|exact Hin].
    + rewrite desiredLoop_no_namespace, staleLoop_run. simpl.
      repeat split; try discriminate.
      intros _. eexists. split; reflexivity.
Qed.

End Report.

(** *** The theorems at work on the sample store *)

Lemma immutable_conflict_classified_witness :
  desiredLoop (E := Sample.env) tt tt true "/tmp" false tt
    [Sample.obj 1; Sample.obj 2] (start Sample.env Sample.conflicting) =
  desiredLoop (E := Sample.env) tt tt true "/tmp" false tt
    [Sample.obj 2]
    (@Build_State Sample.env Sample.conflicting
       [@DiffCall Sample.env (Sample.obj 1) (Err (External "field is immutable"));
        @LogError Sample.env None (ColorizeJoin
          [VObject (Sample.obj 1); VString "immutable"; VLabel DryRunServer])]) /\
  desiredLoop (E := Sample.env) tt tt true "/tmp" false tt
    [Sample.forced 3] (start Sample.env Sample.conflicting) =
  desiredLoop (E := Sample.env) tt tt true "/tmp" false tt
    []
    (@Build_State Sample.env Sample.conflicting
       [@DiffCall Sample.env (Sample.forced 3) (Err (External "field is immutable"));
        @LogInfo Sample.env (ColorizeJoin
          [VObject (Sample.forced 3); VAction CreatedAction; VLabel DryRunServer])]).
Proof.
  destruct (@immutable_conflict_classified Sample.env tt "/tmp" false tt)
    as [Hstep _].
  split.
  - apply (Hstep tt (Sample.obj 1) [Sample.obj 2]
             (start Sample.env Sample.conflicting)
             (External "field is immutable") Sample.conflicting);
      reflexivity.
  - apply (Hstep tt (Sample.forced 3) []
             (start Sample.env Sample.conflicting)
             (External "field is immutable") Sample.conflicting);
      reflexivity.
Defined.

Lemma missing_namespace_reports_created_witness :
  InstanceDryRunDiff (E := Sample.env) tt [Sample.obj 2; Sample.obj 1]
    [Sample.obj 9] false "/tmp" true tt (start Sample.env Sample.unwritable) =
  (None,
   @Build_State Sample.env Sample.unwritable
     [@createdLine Sample.env (Sample.obj 1); @createdLine Sample.env (Sample.obj 2);
      @staleLine Sample.env (Sample.obj 9)]).
Proof.
  exact (proj1 (@missing_namespace_reports_created Sample.env tt
                  [Sample.obj 2; Sample.obj 1] [Sample.obj 9] "/tmp" true tt
                  Sample.unwritable)).
Defined.

(** C8 as stated fails: with detailed diffs on, object 1 is configured, its
    snapshot cannot be written, and the report returns that error: object 2
    is never diffed and the stale object 9 is never reported. *)
Lemma detail_failure_aborts_report :
  ~ (let run := InstanceDryRunDiff (E := Sample.env) tt
                  [Sample.obj 1; Sample.obj 2] [Sample.obj 9] true "/tmp" true tt
                  (start Sample.env Sample.unwritable) in
     (forall r, In r [Sample.obj 1; Sample.obj 2] -> In r (diffCalls (trace (snd run)))) /\
     (forall r, In r [Sample.obj 9] ->
      In (@staleLine Sample.env r) (trace (snd run)))).
Proof.
  intros [_ Hstale].
  specialize (Hstale (Sample.obj 9) (or_introl eq_refl)).
  vm_compute in Hstale.
  repeat (destruct Hstale as [Hstale|Hstale]; [discriminate|]). exact Hstale.
Qed.


(** *** Printing and rendering *)
Section Printing.
Variable E : Env.

(** What the loop of [Print] does with its arguments: it writes the leading
    reports, and stops at the first report that cannot be written or at the
    first argument that is not a report. *)
Lemma printLoop_spec (p : DyffPrinter) (w : Writer E) (args : list (PrintArg E)) :
  forall s, exists r s',
    printLoop p w args s = (r, s') /\
    ((r = inl tt /\
      exists reps,
        args = map (@ArgReport E) reps /\
        trace s' = trace s ++ map (written p w) reps) \/
     (exists err reps rest,
        r = inr (Some err) /\
        args = map (@ArgReport E) reps ++ rest /\
        ((exists rep e tail,
            rest = ArgReport rep :: tail /\
            err = Wrapf "failed to print report: %w" e /\
            trace s' = trace s ++ map (written p w) reps ++
                       [WriteReportCall rep (OmitHeader p) w (Some e)]) \/
         (exists t tail,
            rest = ArgOther t :: tail /\
            err = Errorf ("unsupported type " ++ t)%string /\
            trace s' = trace s ++ map (written p w) reps)))).
Proof.
  induction args as [|[rep|t] rest IH]; intros s; simpl.
  - eexists _, _. split; [reflexivity|]. left. split; [reflexivity|].
    exists []. simpl. now rewrite app_nil_r.
  - unfold Run.bind, call.
    destruct (WriteReport E rep (OmitHeader p) w (world s)) as [[e|] w1].
    + eexists _, _. split; [reflexivity|]. right.
      exists (Wrapf "failed to print report: %w" e), [], (ArgReport rep :: rest).
      split; [reflexivity|]. split; [reflexivity|]. left.
      exists rep, e, rest. auto.
    + destruct (IH {| world := w1;
                      trace := trace s ++
                        [WriteReportCall rep (OmitHeader p) w None] |})
        as (r & s' & Heq & Hr).
      exists r, s'. split; [exact Heq|]. simpl in Hr.
      destruct Hr as [(-> & reps & -> & Ht)
                     |(err & reps & rest' & -> & -> & Hrest)].
      * left. split; [reflexivity|]. exists (rep :: reps).
        split; [reflexivity|]. rewrite Ht, <- app_assoc. reflexivity.
      * right. exists err, (rep :: reps), rest'.
        split; [reflexivity|]. split; [reflexivity|].
        destruct Hrest as [(rep' & e & tail & -> & -> & Ht)
                          |(t & tail & -> & -> & Ht)].
        -- left. exists rep', e, tail. repeat split.
           rewrite Ht, <- app_assoc. reflexivity.
        -- right. exists t, tail. repeat split.
           rewrite Ht, <- app_assoc. reflexivity.
  - eexists _, _. split; [reflexivity|]. right.
    exists (Errorf ("unsupported type " ++ t)%string), [], (ArgOther t :: rest).
    split; [reflexivity|]. split; [reflexivity|]. right.
    exists t, rest. simpl. rewrite app_nil_r. auto.
Qed.

(** X10 (a successful print).  When [Print] returns [nil], every argument
    was a report and each was written once, in argument order, to the given
    writer with the printer's header option; nothing else happened. *)
Theorem Print_success_writes_every_report (p : DyffPrinter) (w : Writer E)
    (args : list (PrintArg E)) (s : State E) :
  fst (Print p w args s) = None ->
  exists reps,
    args = map (@ArgReport E) reps /\
    trace (snd (Print p w args s)) = trace s ++ map (written p w) reps.
Proof.
  unfold Print, Run.exec.
  destruct (printLoop_spec p w args s) as (r & s' & Heq & Hr).
  rewrite Heq.
  destruct Hr as [(-> & reps & Hargs & Ht)|(err & reps & rest & -> & _)].
  - intros _. exists reps. auto.
  - discriminate.
Qed.

(** X11 (a failed print).  When [Print] returns an error, the reports
    before the offending argument were written, in order, and nothing after
    it was: the offending argument is either a report whose write failed,
    and the error wraps that failure, or a value of another type, and the
    error names the type without anything more being written. *)
Theorem Print_stops_at_first_failure (p : DyffPrinter) (w : Writer E)
    (args : list (PrintArg E)) (s : State E) (err : error (ExtErr E)) :
  fst (Print p w args s) = Some err ->
  exists reps rest,
    args = map (@ArgReport E) reps ++ rest /\
    ((exists rep e tail,
        rest = ArgReport rep :: tail /\
        err = Wrapf "failed to print report: %w" e /\
        trace (snd (Print p w args s)) =
          trace s ++ map (written p w) reps ++
          [WriteReportCall rep (OmitHeader p) w (Some e)]) \/
     (exists t tail,
        rest = ArgOther t :: tail /\
        err = Errorf ("unsupported type " ++ t)%string /\
        trace (snd (Print p w args s)) = trace s ++ map (written p w) reps)).
Proof.
  unfold Print, Run.exec.
  destruct (printLoop_spec p w args s) as (r & s' & Heq & Hr).
  rewrite Heq.
  destruct Hr as [(-> & _)|(err' & reps & rest & -> & Hargs & Hrest)].
  - discriminate.
  - simpl. intros Hsome. injection Hsome as <-. exists reps, rest. auto.
Qed.

(** The three ways [DiffYAML] ends. *)
Lemma DiffYAML_spec (liveFile mergedFile : string) (output : Writer E)
    (s : State E) :
  let run := DiffYAML liveFile mergedFile output s in
  (exists e,
     fst run = Some (Wrapf "failed to load input files: %w" e) /\
     trace (snd run) = trace s ++ [LoadFilesCall liveFile mergedFile (Err e)]) \/
  (exists from to e,
     CompareInputFiles E from to = Err e /\
     fst run = Some (Wrapf "failed to compare input files: %w" e) /\
     trace (snd run) =
       trace s ++ [LoadFilesCall liveFile mergedFile (Ok (from, to))]) \/
  (exists from to report r,
     CompareInputFiles E from to = Ok report /\
     fst run = option_map (Wrapf "failed to print report: %w") r /\
     trace (snd run) =
       trace s ++ [LoadFilesCall liveFile mergedFile (Ok (from, to));
                   WriteReportCall report true output r]).
Proof.
  intros run. subst run.
  unfold DiffYAML, Run.exec, Run.bind, call, invoke, Print, Run.exec.
  destruct (LoadFiles E liveFile mergedFile (world s)) as [[[from to]|e] w1].
  - destruct (CompareInputFiles E from to) as [report|e] eqn:Hcmp.
    + right. right. exists from, to, report. simpl.
      unfold Run.bind, call. simpl.
      destruct (WriteReport E report true output w1) as [[e|] w2]; simpl.
      * exists (Some e). rewrite <- app_assoc. auto.
      * exists None. rewrite <- app_assoc. auto.
    + right. left. exists from, to, e. auto.
  - left. exists e. auto.
Qed.

(** X12 ([DiffYAML]).  [DiffYAML] loads the two files, compares them and
    renders the report to the given output with the header omitted.  It
    returns [nil] exactly when the report was written without error; a
    failure of loading, comparing or writing is returned wrapped with the
    name of its stage; and no report is written when loading or comparing
    failed. *)
Theorem DiffYAML_outcomes (liveFile mergedFile : string) (output : Writer E)
    (s : State E) :
  let run := DiffYAML liveFile mergedFile output s in
  (fst run = None <->
   exists from to report,
     CompareInputFiles E from to = Ok report /\
     trace (snd run) =
       trace s ++ [LoadFilesCall liveFile mergedFile (Ok (from, to));
                   WriteReportCall report true output None]) /\
  (forall err, fst run = Some err ->
     exists e,
       (err = Wrapf "failed to load input files: %w" e /\
        trace (snd run) = trace s ++ [LoadFilesCall liveFile mergedFile (Err e)]) \/
       (exists from to,
          err = Wrapf "failed to compare input files: %w" e /\
          CompareInputFiles E from to = Err e /\
          trace (snd run) =
            trace s ++ [LoadFilesCall liveFile mergedFile (Ok (from, to))]) \/
       (exists from to report,
          err = Wrapf "failed to print report: %w" e /\
          CompareInputFiles E from to = Ok report /\
          trace (snd run) =
            trace s ++ [LoadFilesCall liveFile mergedFile (Ok (from, to));
                        WriteReportCall report true output (Some e)])).
Proof.
  intros run.
  destruct (DiffYAML_spec liveFile mergedFile output s)
    as [(e & Hout & Ht)|[(from & to & e & Hcmp & Hout & Ht)
                        |(from & to & report & r & Hcmp & Hout & Ht)]];
    fold run in Hout, Ht; rewrite Hout, Ht.
  - split; [split|].
    + discriminate.
    + intros (from & to & report & _ & Heq).
      apply app_inv_head in Heq. discriminate.
    + intros err Herr. injection Herr as <-. exists e. left. auto.
  - split; [split|].
    + discriminate.
    + intros (from' & to' & report & _ & Heq).
      apply app_inv_head in Heq. discriminate.
    + intros err Herr. injection Herr as <-. exists e. right. left.
      exists from, to. auto.
  - destruct r as [e|]; simpl.
    + split; [split|].
      * discriminate.
      * intros (from' & to' & report' & _ & Heq).
        apply app_inv_head in Heq. discriminate.
      * intros err Herr. injection Herr as <-. exists e. right. right.
        exists from, to, report. auto.
    + split; [split|].
      * intros _. exists from, to, report. auto.
      * reflexivity.
      * discriminate.
Qed.

End Printing.


(** *** The whole report *)
Section WholeReport.
Variable E : Env.

Lemma file_events_facts (evs : list (Event E)) :
  Forall (fun e => isFileEvent e = true) evs ->
  diffCalls evs = [] /\ filter (@isLog E) evs = [] /\
  forall ev x, In ev evs -> ev <> staleLine x.
Proof.
  induction 1 as [|e evs He _ (IH1 & IH2 & IH3)]; [now repeat split|].
  destruct e; try discriminate; simpl; rewrite ?IH1, ?IH2;
    (split; [reflexivity|split; [reflexivity|]]);
    intros ev x [<-|Hin]; try discriminate; now apply IH3.
Qed.

(** The detailed diff adds at least one event, all of them file events that
    keep the discipline, and ends normally or with an error. *)
Lemma detailStep_full (tmpDir : string) (w : Writer E)
    (liveObject mergedObject : option (Obj E)) (s : State E) :
  exists r evs w',
    detailStep tmpDir w liveObject mergedObject s =
      (r, {| world := w'; trace := trace s ++ evs |}) /\
    evs <> [] /\
    Forall (fun e => isFileEvent e = true) evs /\
    Forall (disciplined tmpDir w) evs /\
    (r = inl tt \/ exists err, r = inr (Some err)).
Proof.
  unfold detailStep.
  set (liveFile := filepath_Join E tmpDir "live.yaml").
  set (mergedFile := filepath_Join E tmpDir "merged.yaml").
  unfold Run.bind, call, invoke.
  destruct (os_WriteFile E liveFile (yaml_Marshal E liveObject) 420 (world s))
    as [[e|] w1]; simpl.
  { exists (inr (Some e)),
      [WriteFileCall liveFile (yaml_Marshal E liveObject) 420 (Some e)], w1.
    split; [reflexivity|]. split; [discriminate|].
    split; [repeat constructor|]. split; [|eauto].
    repeat first [apply Forall_nil | apply Forall_cons]; simpl; auto. }
  destruct (os_WriteFile E mergedFile (yaml_Marshal E mergedObject) 420 w1)
    as [[e|] w2]; simpl.
  { exists (inr (Some e)),
      [WriteFileCall liveFile (yaml_Marshal E liveObject) 420 None;
       WriteFileCall mergedFile (yaml_Marshal E mergedObject) 420 (Some e)], w2.
    rewrite <- ?app_assoc.
    split; [reflexivity|]. split; [discriminate|].
    split; [repeat constructor|]. split; [|eauto].
    repeat first [apply Forall_nil | apply Forall_cons]; simpl; auto. }
  set (s2 := {| world := w2;
                trace := (trace s ++
                  [WriteFileCall liveFile (yaml_Marshal E liveObject) 420 None]) ++
                  [WriteFileCall mergedFile (yaml_Marshal E mergedObject) 420 None] |}).
  pose proof (DiffYAML_spec liveFile mergedFile w s2) as Hspec.
  destruct (DiffYAML liveFile mergedFile w s2) as [r [w' t]].
  simpl in Hspec.
  assert (exists news,
            t = trace s2 ++ news /\
            Forall (fun e : Event E => isFileEvent e = true) news /\
            Forall (disciplined tmpDir w) news) as (news & -> & Hfile & Hdisc).
  { destruct Hspec as [(e & _ & ->)|[(from & to & e & _ & _ & ->)
                                    |(from & to & report & r' & _ & _ & ->)]];
      eexists; (split; [reflexivity|]); split;
      repeat first [apply Forall_nil | apply Forall_cons]; simpl; auto. }
  subst s2. simpl. rewrite <- !app_assoc. simpl.
  destruct r as [e|];
    eexists _,
      (WriteFileCall liveFile (yaml_Marshal E liveObject) 420 None ::
       WriteFileCall mergedFile (yaml_Marshal E mergedObject) 420 None :: news), w';
    (split; [reflexivity|]); (split; [discriminate|]);
    (split; [repeat constructor; exact Hfile|]);
    (split; [repeat first [exact Hdisc | apply Forall_cons]; simpl; auto|eauto]).
Qed.

Lemma guarantee_nil (tmpDir : string) (withDiff : bool) (w : Writer E) :
  loopGuarantee tmpDir withDiff w [] (inl tt) (@nil (Event E)).
Proof.
  unfold loopGuarantee. split; [|split; [|split; [|split; [|split]]]].
  - constructor.
  - intros ev x [].
  - intros ev [].
  - exists []. auto.
  - reflexivity.
  - now left.
Qed.

(** One more turn before a loop that keeps the guarantee: the call, its log
    line, and the events of a detailed diff that did not fail. *)
Lemma guarantee_step (tmpDir : string) (withDiff : bool) (w : Writer E)
    (o : Obj E) (rest : list (Obj E))
    (res : result (ExtErr E) (ChangeSetEntry (Obj E) * option (Obj E) * option (Obj E)))
    (line : Event E) (detail evs : list (Event E))
    (r : unit + option (error (ExtErr E))) :
  isLog line = true ->
  (forall x, line <> staleLine x) ->
  Forall (fun e => isFileEvent e = true) detail ->
  Forall (disciplined tmpDir w) detail ->
  (detail <> [] ->
   withDiff = true /\
   exists c live merged, res = Ok (c, live, merged) /\
                         EntryAction c = ConfiguredAction) ->
  loopGuarantee tmpDir withDiff w rest r evs ->
  loopGuarantee tmpDir withDiff w (o :: rest) r
    (DiffCall o res :: line :: detail ++ evs).
Proof.
  intros Hlog Hnot Hfile Hdisc Hwhy (G1 & G2 & G3 & (left & Hobjs & Hend) & G5 & G6).
  destruct (file_events_facts Hfile) as (F1 & F2 & F3).
  assert (isFileEvent line = false) as Hlinefile
    by (destruct line; try discriminate; reflexivity).
  unfold loopGuarantee. split; [|split; [|split; [|split; [|split]]]].
  - constructor; [exact I|]. constructor.
    + destruct line; try discriminate; exact I.
    + apply Forall_app. split; assumption.
  - intros ev x [<-|[<-|Hin]]; [discriminate|apply Hnot|].
    apply in_app_or in Hin. destruct Hin as [Hin|Hin]; [now apply F3|now apply G2].
  - intros ev [<-|[<-|Hin]] Hf; [discriminate|congruence|].
    apply in_app_or in Hin. destruct Hin as [Hin|Hin].
    + assert (detail <> []) as Hne by (intros ->; destruct Hin).
      destruct (Hwhy Hne) as (Hwd & c & live & merged & -> & Hact).
      split; [exact Hwd|].
      exists o, c, live, merged. split; [now left|exact Hact].
    + destruct (G3 ev Hin Hf) as (Hwd & o' & c & live & merged & Hc & Hact).
      split; [exact Hwd|].
      exists o', c, live, merged. split; [|exact Hact].
      right. right. apply in_or_app. now right.
  - exists left. split.
    + assert (diffCalls (DiffCall o res :: line :: detail ++ evs) =
              o :: diffCalls evs) as ->
        by (destruct line; try discriminate;
            simpl; now rewrite DyffProps.diffCalls_app, F1).
      simpl. now rewrite Hobjs.
    + exact Hend.
  - intros Hr. simpl. rewrite Hlog. simpl. rewrite filter_app, F2. simpl.
    now rewrite (G5 Hr).
  - destruct G6 as [->|(err & -> & ev & Hin & Hf)]; [now left|right].
    exists err. split; [reflexivity|]. exists ev. split; [|exact Hf].
    right. right. apply in_or_app. now right.
Qed.

(** The turn on which the detailed diff fails. *)
Lemma guarantee_abort (tmpDir : string) (withDiff : bool) (w : Writer E)
    (o : Obj E) (rest : list (Obj E)) (c : ChangeSetEntry (Obj E))
    (live merged : option (Obj E)) (detail : list (Event E))
    (err : error (ExtErr E)) :
  withDiff = true ->
  EntryAction c = ConfiguredAction ->
  detail <> [] ->
  Forall (fun e => isFileEvent e = true) detail ->
  Forall (disciplined tmpDir w) detail ->
  loopGuarantee tmpDir withDiff w (o :: rest) (inr (Some err))
    (DiffCall o (Ok (c, live, merged)) :: changeLine c :: detail).
Proof.
  intros Hwd Hact Hne Hfile Hdisc.
  destruct (file_events_facts Hfile) as (F1 & F2 & F3).
  unfold loopGuarantee. split; [|split; [|split; [|split; [|split]]]].
  - repeat constructor. exact Hdisc.
  - intros ev x [<-|[<-|Hin]]; [discriminate|discriminate|now apply F3].
  - intros ev _ _. split; [exact Hwd|].
    exists o, c, live, merged. split; [now left|exact Hact].
  - exists rest. split; [|discriminate]. simpl. now rewrite F1.
  - discriminate.
  - right. exists err. split; [reflexivity|].
    destruct detail as [|ev detail]; [now destruct Hne|].
    exists ev. split; [right; right; now left|].
    now inversion Hfile.
Qed.

(** One turn of the loop on an object whose [rm.Diff] call succeeds. *)
Lemma diff_ok_step (rm : ResourceManager E) (diffOpts : DiffOptionsT E)
    (tmpDir : string) (withDiff : bool) (w : Writer E)
    (o : Obj E) (rest : list (Obj E)) (s : State E)
    (c : ChangeSetEntry (Obj E)) (live merged : option (Obj E)) (w1 : World E) :
  Diff E rm o diffOpts (world s) = (Ok (c, live, merged), w1) ->
  let s1 := {| world := w1;
               trace := trace s ++
                        [DiffCall o (Ok (c, live, merged)); changeLine c] |} in
  desiredLoop rm diffOpts true tmpDir withDiff w (o :: rest) s =
  if withDiff && Action_eqb (EntryAction c) ConfiguredAction
  then Run.bind (detailStep tmpDir w live merged)
         (fun _ => desiredLoop rm diffOpts true tmpDir withDiff w rest) s1
  else desiredLoop rm diffOpts true tmpDir withDiff w rest s1.
Proof.
  intros Hdiff s1. subst s1. simpl.
  unfold Run.bind at 1. unfold call at 1. rewrite Hdiff.
  unfold Run.bind at 1. unfold emit at 1. simpl.
  rewrite <- app_assoc. simpl. unfold changeLine.
  destruct (withDiff && Action_eqb (EntryAction c) ConfiguredAction); reflexivity.
Qed.

Lemma failureLine_is_log (o : Obj E) (e : error (ExtErr E)) :
  isLog (failureLine o e) = true /\ forall x, failureLine o e <> staleLine x.
Proof.
  unfold failureLine.
  destruct (IsImmutableError E e); [destruct (hasForceMarker o)|];
    split; try reflexivity; discriminate.
Qed.

(** The loop over the desired objects keeps its guarantee. *)
Lemma desiredLoop_full (rm : ResourceManager E) (diffOpts : DiffOptionsT E)
    (tmpDir : string) (withDiff : bool) (w : Writer E) (objects : list (Obj E)) :
  forall s, exists r evs w',
    desiredLoop rm diffOpts true tmpDir withDiff w objects s =
      (r, {| world := w'; trace := trace s ++ evs |}) /\
    loopGuarantee tmpDir withDiff w objects r evs.
Proof.
  induction objects as [|o rest IH]; intros s.
  - exists (inl tt), [], (world s). simpl. unfold Run.ret. rewrite app_nil_r.
    split; [now destruct s|apply guarantee_nil].
  - destruct (Diff E rm o diffOpts (world s)) as [[[[c live] merged]|e] w1] eqn:Hdiff.
    + rewrite (@diff_ok_step rm diffOpts tmpDir withDiff w o rest s c live merged
                 w1 Hdiff).
      set (s1 := {| world := w1;
                    trace := trace s ++
                      [DiffCall o (Ok (c, live, merged)); changeLine c] |}).
      destruct (withDiff && Action_eqb (EntryAction c) ConfiguredAction) eqn:Hcond.
      * apply andb_true_iff in Hcond. destruct Hcond as [Hwd Hact].
        assert (EntryAction c = ConfiguredAction) as Hconf
          by (destruct (EntryAction c); try discriminate; reflexivity).
        unfold Run.bind.
        destruct (detailStep_full tmpDir w live merged s1)
          as (q & detail & w2 & Heq & Hne & Hfile & Hdisc & Hq).
        rewrite Heq. destruct Hq as [->|(err & ->)].
        -- destruct (IH {| world := w2; trace := trace s1 ++ detail |})
             as (r & evs & w' & Hrest & Hg).
           rewrite Hrest.
           exists r, (DiffCall o (Ok (c, live, merged)) :: changeLine c ::
                      detail ++ evs), w'.
           split; [subst s1; simpl; now rewrite <- !app_assoc|].
           apply guarantee_step; auto; [discriminate|].
           intros _. split; [exact Hwd|]. exists c, live, merged. auto.
        -- exists (inr (Some err)),
             (DiffCall o (Ok (c, live, merged)) :: changeLine c :: detail), w2.
           split; [subst s1; simpl; now rewrite <- !app_assoc|].
           now apply guarantee_abort.
      * destruct (IH s1) as (r & evs & w' & Hrest & Hg).
        rewrite Hrest.
        exists r, (DiffCall o (Ok (c, live, merged)) :: changeLine c :: [] ++ evs), w'.
        split; [subst s1; simpl; now rewrite <- !app_assoc|].
        apply guarantee_step; auto; [discriminate|].
        intros Hne. now destruct Hne.
    + rewrite DyffProps.diff_error_step with (1 := Hdiff).
      destruct (IH {| world := w1;
                      trace := trace s ++ [DiffCall o (Err e); failureLine o e] |})
        as (r & evs & w' & Hrest & Hg).
      rewrite Hrest.
      exists r, (DiffCall o (Err e) :: failureLine o e :: [] ++ evs), w'.
      split; [simpl; now rewrite <- !app_assoc|].
      destruct (failureLine_is_log o e) as (Hlog & Hnot).
      apply guarantee_step; auto.
      intros Hne. now destruct Hne.
Qed.

(** A report with the namespace present: the events of the loop, then the
    stale lines if the loop reached its end. *)
Lemma report_full (rm : ResourceManager E) (objects staleObjects : list (Obj E))
    (tmpDir : string) (withDiff : bool) (w : Writer E) (w0 : World E) :
  let run := InstanceDryRunDiff rm objects staleObjects true tmpDir withDiff w
               (start E w0) in
  exists r evs,
    loopGuarantee tmpDir withDiff w (sort_Sort E (Less E) objects) r evs /\
    ((r = inl tt /\ fst run = None /\
      trace (snd run) = evs ++ map (@staleLine E) staleObjects) \/
     (exists err, r = inr (Some err) /\ fst run = Some err /\
                  trace (snd run) = evs)).
Proof.
  intros run. subst run. unfold InstanceDryRunDiff, Run.exec, Run.bind.
  destruct (desiredLoop_full rm (DefaultDiffOptions E) tmpDir withDiff w
              (sort_Sort E (Less E) objects) (start E w0))
    as (r & evs & w' & Heq & Hg).
  rewrite Heq. exists r, evs. split; [exact Hg|].
  destruct Hg as (_ & _ & _ & _ & _ & [->|(err & -> & _)]).
  - left. rewrite DyffProps.staleLoop_run. simpl. auto.
  - right. exists err. simpl. auto.
Qed.

(** A report without the namespace, in full. *)
Lemma report_no_namespace (rm : ResourceManager E)
    (objects staleObjects : list (Obj E))
    (tmpDir : string) (withDiff : bool) (w : Writer E) (w0 : World E) :
  InstanceDryRunDiff rm objects staleObjects false tmpDir withDiff w (start E w0) =
  (None,
   {| world := w0;
      trace := map (@createdLine E) (sort_Sort E (Less E) objects) ++
               map (@staleLine E) staleObjects |}).
Proof.
  unfold InstanceDryRunDiff, Run.exec, Run.bind.
  rewrite DyffProps.desiredLoop_no_namespace, DyffProps.staleLoop_run. reflexivity.
Qed.

Lemma log_lines_facts (f : Obj E -> Event E) (l : list (Obj E))
    (tmpDir : string) (w : Writer E) :
  (forall o, isLog (f o) = true) ->
  Forall (fun e => isFileEvent e = false) (map f l) /\
  Forall (disciplined tmpDir w) (map f l) /\
  List.length (filter (@isLog E) (map f l)) = List.length l.
Proof.
  intros Hlog.
  induction l as [|o l (IH1 & IH2 & IH3)]; [now repeat constructor|].
  simpl. rewrite Hlog. simpl. rewrite IH3.
  specialize (Hlog o).
  split; [|split; [|reflexivity]]; constructor; auto;
    destruct (f o); try discriminate; simpl; auto.
Qed.

(** X13 (no detail, no files).  Without detailed diffs the report, on any
    input, writes no snapshot, loads no file and renders nothing: its trace
    holds only [rm.Diff] calls and log lines. *)
Theorem no_file_access_without_detail (rm : ResourceManager E)
    (objects staleObjects : list (Obj E)) (nsExists : bool) (tmpDir : string)
    (w : Writer E) (w0 : World E) :
  Forall (fun e => isFileEvent e = false)
    (trace (snd (InstanceDryRunDiff rm objects staleObjects nsExists tmpDir
                   false w (start E w0)))).
Proof.
  destruct nsExists.
  - destruct (report_full rm objects staleObjects tmpDir false w w0)
      as (r & evs & (_ & _ & G3 & _) & Hrun).
    assert (Forall (fun e : Event E => isFileEvent e = false) evs) as Hevs.
    { apply Forall_forall. intros ev Hin.
      destruct (isFileEvent ev) eqn:Hf; [|reflexivity].
      destruct (G3 ev Hin Hf) as (Hwd & _). discriminate. }
    destruct Hrun as [(_ & _ & ->)|(err & _ & _ & ->)]; [|exact Hevs].
    apply Forall_app. split; [exact Hevs|].
    now apply (log_lines_facts (@staleLine E) staleObjects tmpDir w).
  - rewrite report_no_namespace. simpl. apply Forall_app. split.
    + now apply (log_lines_facts (@createdLine E) _ tmpDir w).
    + now apply (log_lines_facts (@staleLine E) staleObjects tmpDir w).
Qed.

(** X14 (diff order).  With the namespace present, the objects the report
    calls [rm.Diff] on are an initial segment of the desired objects in
    sorted order, each called once; the segment is the whole list when the
    report returns [nil]. *)
Theorem diff_calls_are_prefix_of_sorted_objects (rm : ResourceManager E)
    (objects staleObjects : list (Obj E)) (tmpDir : string) (withDiff : bool)
    (w : Writer E) (w0 : World E) :
  let run := InstanceDryRunDiff rm objects staleObjects true tmpDir withDiff w
               (start E w0) in
  exists rest,
    sort_Sort E (Less E) objects = diffCalls (trace (snd run)) ++ rest /\
    (fst run = None -> rest = []).
Proof.
  intros run.
  destruct (report_full rm objects staleObjects tmpDir withDiff w w0)
    as (r & evs & (_ & _ & _ & (rest & Hobjs & Hend) & _) & Hrun).
  fold run in Hrun. exists rest.
  destruct Hrun as [(-> & Hout & ->)|(err & -> & Hout & ->)].
  - rewrite DyffProps.diffCalls_app, DyffProps.diffCalls_stale, app_nil_r. auto.
  - split; [exact Hobjs|]. rewrite Hout. discriminate.
Qed.

(** X15 (an aborted report).  A report that returns an error has logged no
    stale object, and its trace holds an event of the detailed diff. *)
Theorem failed_report_logs_no_stale_object (rm : ResourceManager E)
    (objects staleObjects : list (Obj E)) (nsExists : bool) (tmpDir : string)
    (withDiff : bool) (w : Writer E) (w0 : World E) (err : error (ExtErr E)) :
  let run := InstanceDryRunDiff rm objects staleObjects nsExists tmpDir
               withDiff w (start E w0) in
  fst run = Some err ->
  (forall x, ~ In (staleLine x) (trace (snd run))) /\
  exists ev, In ev (trace (snd run)) /\ isFileEvent ev = true.
Proof.
  intros run Herr. destruct nsExists.
  - destruct (report_full rm objects staleObjects tmpDir withDiff w w0)
      as (r & evs & (_ & G2 & _ & _ & _ & G6) & Hrun).
    fold run in Hrun.
    destruct Hrun as [(_ & Hout & _)|(err' & -> & _ & ->)].
    + rewrite Hout in Herr. discriminate.
    + split.
      * intros x Hin. now apply (G2 _ x Hin).
      * destruct G6 as [Hr|(e & _ & ev & Hin & Hf)]; [discriminate|].
        exists ev. auto.
  - subst run. rewrite report_no_namespace in Herr. discriminate.
Qed.

(** X16 (discipline of the detailed diff).  On any input, every snapshot
    the report writes is [live.yaml] or [merged.yaml] under [tmpDir] with
    mode 0644, every load reads exactly those two files, and every
    rendering goes to the given writer with the header omitted. *)
Theorem detail_uses_only_the_two_snapshots (rm : ResourceManager E)
    (objects staleObjects : list (Obj E)) (nsExists : bool) (tmpDir : string)
    (withDiff : bool) (w : Writer E) (w0 : World E) :
  let t := trace (snd (InstanceDryRunDiff rm objects staleObjects nsExists
                         tmpDir withDiff w (start E w0))) in
  (forall path data perm r,
     In (WriteFileCall path data perm r) t ->
     perm = 420%Z /\
     (path = filepath_Join E tmpDir "live.yaml" \/
      path = filepath_Join E tmpDir "merged.yaml")) /\
  (forall from to r,
     In (LoadFilesCall from to r) t ->
     from = filepath_Join E tmpDir "live.yaml" /\
     to = filepath_Join E tmpDir "merged.yaml") /\
  (forall rep omitHeader w' r,
     In (WriteReportCall rep omitHeader w' r) t ->
     omitHeader = true /\ w' = w).
Proof.
  intros t.
  assert (Forall (disciplined tmpDir w) t) as Hdisc.
  { subst t. destruct nsExists.
    - destruct (report_full rm objects staleObjects tmpDir withDiff w w0)
        as (r & evs & (G1 & _) & Hrun).
      destruct Hrun as [(_ & _ & ->)|(err & _ & _ & ->)]; [|exact G1].
      apply Forall_app. split; [exact G1|].
      now apply (log_lines_facts (@staleLine E) staleObjects tmpDir w).
    - rewrite report_no_namespace. simpl. apply Forall_app. split.
      + now apply (log_lines_facts (@createdLine E) _ tmpDir w).
      + now apply (log_lines_facts (@staleLine E) staleObjects tmpDir w). }
  rewrite Forall_forall in Hdisc.
  split; [|split].
  - intros path data perm r Hin. exact (Hdisc _ Hin).
  - intros from to r Hin. exact (Hdisc _ Hin).
  - intros rep omitHeader w' r Hin. exact (Hdisc _ Hin).
Qed.

(** X17 (nothing configured, nothing rendered).  With the namespace
    present, if no [rm.Diff] call of the report returned a configured
    change, the report returns [nil] and touches no file, even when
    detailed diffs are asked for. *)
Theorem no_configured_change_no_detail (rm : ResourceManager E)
    (objects staleObjects : list (Obj E)) (tmpDir : string) (withDiff : bool)
    (w : Writer E) (w0 : World E) :
  let run := InstanceDryRunDiff rm objects staleObjects true tmpDir withDiff w
               (start E w0) in
  (forall o c live merged,
     In (DiffCall o (Ok (c, live, merged))) (trace (snd run)) ->
     EntryAction c <> ConfiguredAction) ->
  fst run = None /\
  Forall (fun e => isFileEvent e = false) (trace (snd run)).
Proof.
  intros run Hnone.
  destruct (report_full rm objects staleObjects tmpDir withDiff w w0)
    as (r & evs & (_ & _ & G3 & _ & _ & G6) & Hrun).
  fold run in Hrun.
  assert (forall ev, In ev evs -> In ev (trace (snd run))) as Hsub.
  { intros ev Hin. destruct Hrun as [(_ & _ & ->)|(err & _ & _ & ->)];
      [apply in_or_app; now left|exact Hin]. }
  assert (Forall (fun e : Event E => isFileEvent e = false) evs) as Hevs.
  { apply Forall_forall. intros ev Hin.
    destruct (isFileEvent ev) eqn:Hf; [|reflexivity].
    destruct (G3 ev Hin Hf) as (_ & o & c & live & merged & Hc & Hact).
    now destruct (Hnone o c live merged (Hsub _ Hc)). }
  destruct Hrun as [(_ & Hout & Ht)|(err & -> & _ & _)].
  - split; [exact Hout|]. rewrite Ht. apply Forall_app. split; [exact Hevs|].
    now apply (log_lines_facts (@staleLine E) staleObjects tmpDir w).
  - exfalso. destruct G6 as [Hr|(e & _ & ev & Hin & Hf)]; [discriminate|].
    rewrite Forall_forall in Hevs. rewrite (Hevs ev Hin) in Hf. discriminate.
Qed.

(** X18 (one line per resource).  A report that returns [nil] has logged
    exactly one line for each desired object and one for each stale
    object. *)
Theorem complete_report_logs_one_line_per_object (rm : ResourceManager E)
    (objects staleObjects : list (Obj E)) (nsExists : bool) (tmpDir : string)
    (withDiff : bool) (w : Writer E) (w0 : World E) :
  StrictWeakOrder (Less E) ->
  sort_contract (sort_Sort E) ->
  let run := InstanceDryRunDiff rm objects staleObjects nsExists tmpDir
               withDiff w (start E w0) in
  fst run = None ->
  List.length (filter (@isLog E) (trace (snd run))) =
  List.length objects + List.length staleObjects.
Proof.
  intros Hswo Hsort run Hnil.
  assert (List.length (sort_Sort E (Less E) objects) = List.length objects) as Hlen.
  { destruct (Hsort (Less E) objects Hswo) as [Hp _].
    symmetry. now apply Permutation_length. }
  destruct (log_lines_facts (@staleLine E) staleObjects tmpDir w) as (_ & _ & Hstale);
    [reflexivity|].
  destruct nsExists.
  - destruct (report_full rm objects staleObjects tmpDir withDiff w w0)
      as (r & evs & (_ & _ & _ & _ & G5 & _) & Hrun).
    fold run in Hrun.
    destruct Hrun as [(Hr & _ & ->)|(err & _ & Hout & _)].
    + rewrite filter_app, length_app, (G5 Hr), Hstale, Hlen. reflexivity.
    + rewrite Hout in Hnil. discriminate.
  - subst run. rewrite report_no_namespace. simpl.
    destruct (log_lines_facts (@createdLine E) (sort_Sort E (Less E) objects)
                tmpDir w) as (_ & _ & Hcreated); [reflexivity|].
    rewrite filter_app, length_app, Hcreated, Hstale, Hlen. reflexivity.
Qed.

(** *** Failures of the detailed diff end the report *)

Lemma stops_prefix (blk evs : list (Event E))
    (r : unit + option (error (ExtErr E))) :
  Forall (fun ev => detailError ev = None) blk ->
  stopsOnFailure r evs ->
  stopsOnFailure r (blk ++ evs).
Proof.
  intros Hblk Hr. destruct r as [[]|[err|]]; simpl in *.
  - apply Forall_app. auto.
  - destruct Hr as (init & last & -> & Hinit & Hlast).
    exists (blk ++ init), last. rewrite app_assoc.
    split; [reflexivity|]. split; [apply Forall_app; auto|exact Hlast].
  - exact Hr.
Qed.

(** In a trace that stopped on a failure, a failed event is the last one. *)
Lemma failed_event_is_last (init : list (Event E)) :
  forall (last : Event E) before ev after err,
    Forall (fun e => detailError e = None) init ->
    before ++ ev :: after = init ++ [last] ->
    detailError ev = Some err ->
    after = [] /\ ev = last.
Proof.
  induction init as [|a init IH]; intros last before ev after err Hinit Heq Hev.
  - destruct before as [|b before]; simpl in Heq.
    + injection Heq as -> ->. auto.
    + injection Heq as _ Heq. destruct before; discriminate.
  - inversion Hinit as [|? ? Ha Hinit']; subst.
    destruct before as [|b before]; simpl in Heq.
    + injection Heq as -> _. rewrite Ha in Hev. discriminate.
    + injection Heq as _ Heq. exact (IH last before ev after err Hinit' Heq Hev).
Qed.

(** [DiffYAML] stops on its first failure. *)
Lemma DiffYAML_stops (liveFile mergedFile : string) (output : Writer E)
    (s : State E) :
  exists r news w',
    DiffYAML liveFile mergedFile output s =
      (r, {| world := w'; trace := trace s ++ news |}) /\
    stopsOnFailure (match r with None => inl tt | Some err => inr (Some err) end)
      news.
Proof.
  pose proof (DiffYAML_spec liveFile mergedFile output s) as Hspec.
  destruct (DiffYAML liveFile mergedFile output s) as [r [w' t]].
  simpl in Hspec. exists r.
  destruct Hspec as [(e & -> & ->)
                    |[(from & to & e & Hcmp & -> & ->)
                     |(from & to & report & r' & Hcmp & -> & ->)]].
  - eexists _, w'. split; [reflexivity|]. simpl.
    exists [], (LoadFilesCall liveFile mergedFile (Err e)). auto.
  - eexists _, w'. split; [reflexivity|]. simpl.
    exists [], (LoadFilesCall liveFile mergedFile (Ok (from, to))).
    split; [reflexivity|]. split; [constructor|]. simpl. now rewrite Hcmp.
  - eexists _, w'. split; [reflexivity|].
    assert (detailError (LoadFilesCall liveFile mergedFile (Ok (from, to))) = None)
      as Hload by (simpl; now rewrite Hcmp).
    destruct r' as [e|]; simpl.
    + exists [LoadFilesCall liveFile mergedFile (Ok (from, to))],
        (WriteReportCall report true output (Some e)).
      split; [reflexivity|]. split; [now repeat constructor|reflexivity].
    + repeat constructor. exact Hload.
Qed.

(** The detailed diff stops on its first failure. *)
Lemma detailStep_stops (tmpDir : string) (w : Writer E)
    (liveObject mergedObject : option (Obj E)) (s : State E) :
  exists r evs w',
    detailStep tmpDir w liveObject mergedObject s =
      (r, {| world := w'; trace := trace s ++ evs |}) /\
    stopsOnFailure r evs.
Proof.
  unfold detailStep.
  set (liveFile := filepath_Join E tmpDir "live.yaml").
  set (mergedFile := filepath_Join E tmpDir "merged.yaml").
  unfold Run.bind, call, invoke.
  destruct (os_WriteFile E liveFile (yaml_Marshal E liveObject) 420 (world s))
    as [[e|] w1]; simpl.
  { exists (inr (Some e)),
      [WriteFileCall liveFile (yaml_Marshal E liveObject) 420 (Some e)], w1.
    split; [reflexivity|]. simpl.
    exists [], (WriteFileCall liveFile (yaml_Marshal E liveObject) 420 (Some e)).
    auto. }
  destruct (os_WriteFile E mergedFile (yaml_Marshal E mergedObject) 420 w1)
    as [[e|] w2]; simpl.
  { exists (inr (Some e)),
      [WriteFileCall liveFile (yaml_Marshal E liveObject) 420 None;
       WriteFileCall mergedFile (yaml_Marshal E mergedObject) 420 (Some e)], w2.
    rewrite <- ?app_assoc. split; [reflexivity|]. simpl.
    exists [WriteFileCall liveFile (yaml_Marshal E liveObject) 420 None],
      (WriteFileCall mergedFile (yaml_Marshal E mergedObject) 420 (Some e)).
    split; [reflexivity|]. split; [now repeat constructor|reflexivity]. }
  destruct (DiffYAML_stops liveFile mergedFile w
              {| world := w2;
                 trace := (trace s ++
                   [WriteFileCall liveFile (yaml_Marshal E liveObject) 420 None]) ++
                   [WriteFileCall mergedFile (yaml_Marshal E mergedObject) 420 None] |})
    as (r & news & w' & Heq & Hstops).
  rewrite Heq. simpl. rewrite <- !app_assoc. simpl.
  destruct r as [e|];
    eexists _,
      ([WriteFileCall liveFile (yaml_Marshal E liveObject) 420 None;
        WriteFileCall mergedFile (yaml_Marshal E mergedObject) 420 None] ++ news), w';
    (split; [reflexivity|]);
    (apply stops_prefix; [now repeat constructor|exact Hstops]).
Qed.

(** The loop over the desired objects stops on the first failure of a
    detailed diff, and on nothing else. *)
Lemma desiredLoop_stops (rm : ResourceManager E) (diffOpts : DiffOptionsT E)
    (tmpDir : string) (withDiff : bool) (w : Writer E) (objects : list (Obj E)) :
  forall s, exists r evs w',
    desiredLoop rm diffOpts true tmpDir withDiff w objects s =
      (r, {| world := w'; trace := trace s ++ evs |}) /\
    stopsOnFailure r evs.
Proof.
  induction objects as [|o rest IH]; intros s.
  - exists (inl tt), [], (world s). simpl. unfold Run.ret. rewrite app_nil_r.
    split; [now destruct s|constructor].
  - destruct (Diff E rm o diffOpts (world s)) as [[[[c live] merged]|e] w1] eqn:Hdiff.
    + rewrite (@diff_ok_step rm diffOpts tmpDir withDiff w o rest s c live merged
                 w1 Hdiff).
      set (s1 := {| world := w1;
                    trace := trace s ++
                      [DiffCall o (Ok (c, live, merged)); changeLine c] |}).
      assert (Forall (fun ev : Event E => detailError ev = None)
                [DiffCall o (Ok (c, live, merged)); changeLine c]) as Hblk
        by (now repeat constructor).
      destruct (withDiff && Action_eqb (EntryAction c) ConfiguredAction).
      * unfold Run.bind.
        destruct (detailStep_stops tmpDir w live merged s1)
          as (q & detail & w2 & Heq & Hq).
        rewrite Heq. destruct q as [[]|out].
        -- destruct (IH {| world := w2; trace := trace s1 ++ detail |})
             as (r & evs & w' & Hrest & Hr).
           rewrite Hrest.
           exists r, ([DiffCall o (Ok (c, live, merged)); changeLine c] ++
                      detail ++ evs), w'.
           split; [subst s1; simpl; now rewrite <- !app_assoc|].
           apply stops_prefix; [exact Hblk|].
           apply stops_prefix; [exact Hq|exact Hr].
        -- exists (inr out),
             ([DiffCall o (Ok (c, live, merged)); changeLine c] ++ detail), w2.
           split; [subst s1; simpl; now rewrite <- !app_assoc|].
           apply stops_prefix; [exact Hblk|exact Hq].
      * destruct (IH s1) as (r & evs & w' & Hrest & Hr).
        rewrite Hrest.
        exists r, ([DiffCall o (Ok (c, live, merged)); changeLine c] ++ evs), w'.
        split; [subst s1; simpl; now rewrite <- !app_assoc|].
        apply stops_prefix; [exact Hblk|exact Hr].
    + rewrite DyffProps.diff_error_step with (1 := Hdiff).
      destruct (IH {| world := w1;
                      trace := trace s ++ [DiffCall o (Err e); failureLine o e] |})
        as (r & evs & w' & Hrest & Hr).
      rewrite Hrest.
      exists r, ([DiffCall o (Err e); failureLine o e] ++ evs), w'.
      split; [simpl; now rewrite <- !app_assoc|].
      apply stops_prefix; [|exact Hr].
      repeat constructor. unfold failureLine.
      destruct (IsImmutableError E e); [destruct (hasForceMarker o)|]; reflexivity.
Qed.

Lemma log_lines_do_not_fail (f : Obj E -> Event E) (l : list (Obj E)) :
  (forall o, isLog (f o) = true) ->
  Forall (fun ev => detailError ev = None) (map f l).
Proof.
  intros Hlog. apply Forall_forall. intros ev Hin.
  apply in_map_iff in Hin. destruct Hin as (o & <- & _).
  specialize (Hlog o). destruct (f o); try discriminate; reflexivity.
Qed.

(** A report stops on the first failure of a detailed diff. *)
Lemma report_stops (rm : ResourceManager E) (objects staleObjects : list (Obj E))
    (nsExists : bool) (tmpDir : string) (withDiff : bool) (w : Writer E)
    (w0 : World E) :
  let run := InstanceDryRunDiff rm objects staleObjects nsExists tmpDir withDiff
               w (start E w0) in
  stopsOnFailure
    (match fst run with None => inl tt | Some err => inr (Some err) end)
    (trace (snd run)).
Proof.
  intros run. subst run. destruct nsExists.
  - unfold InstanceDryRunDiff, Run.exec, Run.bind.
    destruct (desiredLoop_stops rm (DefaultDiffOptions E) tmpDir withDiff w
                (sort_Sort E (Less E) objects) (start E w0))
      as (r & evs & w' & Heq & Hr).
    rewrite Heq. destruct r as [[]|[err|]].
    + rewrite DyffProps.staleLoop_run. simpl in *.
      apply Forall_app. split; [exact Hr|].
      now apply log_lines_do_not_fail.
    + exact Hr.
    + destruct Hr.
  - rewrite report_no_namespace. simpl. apply Forall_app.
    split; now apply log_lines_do_not_fail.
Qed.

(** C8, amended.  An error of [rm.Diff] on an object is logged and the loop
    goes on with the remaining objects.  A report that returns [nil] has
    gone through every desired object (a [rm.Diff] call each, or a [created]
    line each when the namespace is missing) and logged every stale object;
    without detailed diffs the report always returns [nil]; a report that
    returns an error was asked for detailed diffs and had logged a
    configured change.  And a failure of the detailed diff (a snapshot
    write, a load, a comparison or a rendering that fails) is returned at
    once and ends the report: the failed event is the last of the trace and
    the report returns its error; conversely a report that returns an error
    ends with the event that failed with it. *)
Theorem diff_errors_do_not_abort (rm : ResourceManager E)
    (tmpDir : string) (withDiff : bool) (w : Writer E) :
  (forall r rest s e w1,
     Diff E rm r (DefaultDiffOptions E) (world s) = (Err e, w1) ->
     desiredLoop rm (DefaultDiffOptions E) true tmpDir withDiff w (r :: rest) s =
     desiredLoop rm (DefaultDiffOptions E) true tmpDir withDiff w rest
       {| world := w1;
          trace := trace s ++ [DiffCall r (Err e); failureLine r e] |}) /\
  (forall objects staleObjects nsExists w0,
     let run := InstanceDryRunDiff rm objects staleObjects nsExists tmpDir
                  withDiff w (start E w0) in
     (forall r e,
        In (DiffCall r (Err e)) (trace (snd run)) ->
        In (failureLine r e) (trace (snd run))) /\
     (fst run = None ->
      exists evs,
        trace (snd run) = evs ++ map (@staleLine E) staleObjects /\
        if nsExists
        then diffCalls evs = sort_Sort E (Less E) objects
        else evs = map (@createdLine E) (sort_Sort E (Less E) objects)) /\
     (withDiff = false -> fst run = None) /\
     (forall err, fst run = Some err ->
        withDiff = true /\ nsExists = true /\
        exists c,
          EntryAction c = ConfiguredAction /\
          In (LogInfo (ColorizeJoin [VChange c; VLabel DryRunServer]))
            (trace (snd run)))) /\
  (forall objects staleObjects nsExists w0,
     let run := InstanceDryRunDiff rm objects staleObjects nsExists tmpDir
                  withDiff w (start E w0) in
     (forall before ev after err,
        trace (snd run) = before ++ ev :: after ->
        detailError ev = Some err ->
        after = [] /\ fst run = Some err) /\
     (forall err, fst run = Some err ->
        exists before ev,
          trace (snd run) = before ++ [ev] /\ detailError ev = Some err)).
Proof.
  destruct (@DyffProps.diff_errors_logged_and_complete E rm tmpDir withDiff w)
    as [Hstep Hruns].
  split; [exact Hstep|]. split; [exact Hruns|].
  intros objects staleObjects nsExists w0 run.
  pose proof (report_stops rm objects staleObjects nsExists tmpDir withDiff w w0)
    as Hstops.
  fold run in Hstops. simpl in Hstops.
  destruct (fst run) as [err0|]; simpl in Hstops.
  - destruct Hstops as (init & last & Ht & Hinit & Hlast). split.
    + intros before ev after err Heq Hev. rewrite Ht in Heq.
      destruct (@failed_event_is_last init last before ev after err Hinit
                  (eq_sym Heq) Hev) as (-> & ->).
      split; [reflexivity|]. rewrite Hlast in Hev. now injection Hev as ->.
    + intros err Herr. injection Herr as <-. exists init, last. auto.
  - split.
    + intros before ev after err Heq Hev. exfalso.
      rewrite Heq in Hstops. apply Forall_app in Hstops.
      destruct Hstops as (_ & Hcons). inversion Hcons as [|? ? Hnone _]; subst.
      rewrite Hnone in Hev. discriminate.
    + discriminate.
Qed.

End WholeReport.

Lemma diff_errors_do_not_abort_witness :
  (let run := InstanceDryRunDiff (E := Sample.env) tt
                [Sample.obj 2; Sample.obj 1; Sample.forced 3] [Sample.obj 9]
                true "/tmp" false tt (start Sample.env Sample.conflicting) in
   fst run = None /\
   exists evs,
     trace (snd run) = evs ++ [@staleLine Sample.env (Sample.obj 9)] /\
     @diffCalls Sample.env evs = [Sample.obj 1; Sample.obj 2; Sample.forced 3]) /\
  (let run := InstanceDryRunDiff (E := Sample.env) tt
                [Sample.obj 1; Sample.obj 2] [Sample.obj 9]
                true "/tmp" true tt (start Sample.env Sample.unwritable) in
   fst run = Some (External "read-only file system")).
Proof.
  split.
  - destruct (@diff_errors_do_not_abort Sample.env tt "/tmp" false tt)
      as (_ & Hrun & _).
    destruct (Hrun [Sample.obj 2; Sample.obj 1; Sample.forced 3] [Sample.obj 9]
                true Sample.conflicting) as (_ & Hall & Hnil & _).
    split; [exact (Hnil eq_refl)|exact (Hall (Hnil eq_refl))].
  - destruct (@diff_errors_do_not_abort Sample.env tt "/tmp" true tt)
      as (_ & _ & Hfail).
    destruct (Hfail [Sample.obj 1; Sample.obj 2] [Sample.obj 9]
                true Sample.unwritable) as (Hlast & _).
    exact (proj2 (Hlast
             [@DiffCall Sample.env (Sample.obj 1)
                (Ok ({| Subject := Sample.obj 1; EntryAction := ConfiguredAction |},
                     Some (Sample.obj 1), Some (Sample.obj 1)));
              @changeLine Sample.env
                {| Subject := Sample.obj 1; EntryAction := ConfiguredAction |}]
             (@WriteFileCall Sample.env "/tmp/live.yaml" "object" 420
                (Some (External "read-only file system")))
             [] (External "read-only file system") eq_refl eq_refl)).
Defined.


Lemma object_less_swo : StrictWeakOrder Sample.object_less.
Proof.
  unfold Sample.object_less. constructor.
  - intros x. apply Nat.ltb_irrefl.
  - intros x y z. rewrite !Nat.ltb_lt. lia.
  - intros x y z. rewrite !Nat.ltb_ge. lia.
Qed.

Lemma Print_success_writes_every_report_witness :
  exists reps,
    [@ArgReport Sample.env "first"; @ArgReport Sample.env "second"] =
      map (@ArgReport Sample.env) reps /\
    trace (snd (Print (E := Sample.env) NewDyffPrinter tt
                  [@ArgReport Sample.env "first"; @ArgReport Sample.env "second"]
                  (start Sample.env Sample.conflicting))) =
    [] ++ map (written (E := Sample.env) NewDyffPrinter tt) reps.
Proof.
  exact (@Print_success_writes_every_report Sample.env NewDyffPrinter tt
           [@ArgReport Sample.env "first"; @ArgReport Sample.env "second"]
           (start Sample.env Sample.conflicting) eq_refl).
Defined.

Lemma Print_stops_at_first_failure_witness :
  exists reps rest,
    [@ArgReport Sample.env "first"; @ArgOther Sample.env "int";
     @ArgReport Sample.env "second"] =
      map (@ArgReport Sample.env) reps ++ rest /\
    rest <> [].
Proof.
  destruct (@Print_stops_at_first_failure Sample.env NewDyffPrinter tt
              [@ArgReport Sample.env "first"; @ArgOther Sample.env "int";
               @ArgReport Sample.env "second"]
              (start Sample.env Sample.conflicting)
              (Errorf "unsupported type int") eq_refl)
    as (reps & rest & Hargs & Hrest).
  exists reps, rest. split; [exact Hargs|].
  destruct Hrest as [(rep & e & tail & -> & _)|(t & tail & -> & _)]; discriminate.
Defined.

Lemma failed_report_logs_no_stale_object_witness :
  ~ In (@staleLine Sample.env (Sample.obj 9))
      (trace (snd (InstanceDryRunDiff (E := Sample.env) tt
                     [Sample.obj 1; Sample.obj 2] [Sample.obj 9] true "/tmp"
                     true tt (start Sample.env Sample.unwritable)))).
Proof.
  exact (proj1 (@failed_report_logs_no_stale_object Sample.env tt
                  [Sample.obj 1; Sample.obj 2] [Sample.obj 9] true "/tmp" true tt
                  Sample.unwritable (External "read-only file system") eq_refl)
           (Sample.obj 9)).
Defined.

Lemma no_configured_change_no_detail_witness :
  fst (InstanceDryRunDiff (E := Sample.env) tt
         [Sample.obj 1; Sample.forced 3] [Sample.obj 9] true "/tmp" true tt
         (start Sample.env Sample.conflicting)) = None.
Proof.
  apply (@no_configured_change_no_detail Sample.env tt
           [Sample.obj 1; Sample.forced 3] [Sample.obj 9] "/tmp" true tt
           Sample.conflicting).
  intros o c live merged. vm_compute. intros H.
  repeat (destruct H as [H|H]; [discriminate|]). destruct H.
Defined.

Lemma complete_report_logs_one_line_per_object_witness :
  List.length
    (filter (@isLog Sample.env)
       (trace (snd (InstanceDryRunDiff (E := Sample.env) tt
                      [Sample.obj 2; Sample.obj 1; Sample.forced 3]
                      [Sample.obj 9] true "/tmp" false tt
                      (start Sample.env Sample.conflicting))))) = 4.
Proof.
  exact (@complete_report_logs_one_line_per_object Sample.env tt
           [Sample.obj 2; Sample.obj 1; Sample.forced 3] [Sample.obj 9]
           true "/tmp" false tt Sample.conflicting
           object_less_swo isort_contract eq_refl).
Defined.

End DyffProps.
